(** * liquid-dsp [iirfilt]: a shallow embedding of src/filter/src/iirfilt.c

    The C file is a macro template over the sample types TO, TC and TI.
    This development embeds the floating-point instantiation with real
    samples and coefficients (the [#else] branches of the file, that is
    neither [LIQUID_FIXED] nor [LIQUID_IIRFILT_USE_DOTPROD]), with [float]
    read as the field of real numbers and [float complex] as pairs of
    reals.  An [unsigned int] is a 32-bit value kept in [N], every
    arithmetic operation on it written with its wrap-around.  A heap block
    is a list whose length is the number of elements given to [malloc];
    an access outside of it is the outcome [Fault]. *)

From Stdlib Require Import Reals Lra Lia List NArith ZArith Bool.
Import ListNotations.

Local Open Scope R_scope.

(** * Part I: the embedding *)

(** ** Outcomes of a call *)

(** The [exit(1)] paths of the file, one constructor per message, and the
    failure of the section constructor. *)
Inductive fatal : Type :=
| numerator_length_zero
| denominator_length_zero
| no_second_order_section
| pll_bandwidth_range
| pll_damping_range
| pll_gain_range
| section_leading_zero.

Inductive result (A : Type) : Type :=
| Ok (x : A)
| Exit (e : fatal)
| Fault.

Arguments Ok {A} x.
Arguments Exit {A} e.
Arguments Fault {A}.

Definition bind {A B : Type} (m : result A) (k : A -> result B) : result B :=
  match m with
  | Ok x => k x
  | Exit e => Exit e
  | Fault => Fault
  end.

Notation "x <- m ;; k" := (bind m (fun x => k))
  (at level 61, m at next level, right associativity).

(** ** [unsigned int] *)

Module UInt.

Definition modulus : N := 4294967296%N.

Definition wrap (x : N) : N := (x mod modulus)%N.

Definition mul (x y : N) : N := wrap (x * y).
Definition add (x y : N) : N := wrap (x + y).
Definition sub (x y : N) : N := wrap (x + modulus - wrap y).

Definition in_range (x : N) : Prop := (x < modulus)%N.

End UInt.

(** ** Heap blocks *)

Module Block.

Section Elements.

Context {T : Type}.

(** [malloc(k*sizeof(T))]: [k] elements of indeterminate value; the
    embedding fills them with [d], and no function of the file reads
    one before it is written. *)
Definition malloc (d : T) (k : N) : list T := repeat d (N.to_nat k).

(** [p[i]] as an rvalue. *)
Definition rd (p : list T) (i : nat) : result T :=
  match nth_error p i with
  | Some x => Ok x
  | None => Fault
  end.

Fixpoint upd (p : list T) (i : nat) (x : T) : list T :=
  match p, i with
  | [], _ => []
  | _ :: t, O => x :: t
  | h :: t, S j => h :: upd t j x
  end.

(** [p[i] = x]. *)
Definition wr (p : list T) (i : nat) (x : T) : result (list T) :=
  if (i <? length p)%nat then Ok (upd p i x) else Fault.

(** [memmove(dst, src, k*sizeof(T))] from the start of both blocks. *)
Definition memmove (dst src : list T) (k : N) : result (list T) :=
  let c := N.to_nat k in
  if ((c <=? length dst) && (c <=? length src))%nat
  then Ok (firstn c src ++ skipn c dst)
  else Fault.

End Elements.

End Block.

(** ** Counted loops *)

(** [for (i = lo; i < lo + cnt; i++) body(i)] over a state [S]. *)
Fixpoint for_up {S : Type} (body : nat -> S -> result S)
  (lo cnt : nat) (s : S) : result S :=
  match cnt with
  | O => Ok s
  | Datatypes.S c => s' <- body lo s ;; for_up body (Datatypes.S lo) c s'
  end.

(** [for (i = hi; i > 0; i--) body(i)]. *)
Fixpoint for_down {S : Type} (body : nat -> S -> result S)
  (hi : nat) (s : S) : result S :=
  match hi with
  | O => Ok s
  | Datatypes.S j => s' <- body hi s ;; for_down body j s'
  end.

(** ** Second-order sections (iirfiltsos) *)

(** The object behind [IIRFILTSOS()]: three numerator taps, three
    denominator taps and the two-element delay state. *)
Record iirfiltsos : Type := mk_iirfiltsos {
  sos_b0 : R; sos_b1 : R; sos_b2 : R;
  sos_a0 : R; sos_a1 : R; sos_a2 : R;
  sos_v1 : R; sos_v2 : R
}.

(** Modelled from the spec: [IIRFILTSOS(_create)], which iirfilt.c
    calls and does not define.  Section 4.1: [create(b[3], a[3])] normalizes so
    that [a[0] = 1], zero-initializes the state, and fails if
    [a[0] == 0]. *)
Definition iirfiltsos_create (_b _a : list R) : result iirfiltsos :=
  b0 <- Block.rd _b 0 ;;
  b1 <- Block.rd _b 1 ;;
  b2 <- Block.rd _b 2 ;;
  a0 <- Block.rd _a 0 ;;
  a1 <- Block.rd _a 1 ;;
  a2 <- Block.rd _a 2 ;;
  if Req_dec_T a0 0 then Exit section_leading_zero
  else Ok {| sos_b0 := b0 / a0; sos_b1 := b1 / a0; sos_b2 := b2 / a0;
             sos_a0 := a0 / a0; sos_a1 := a1 / a0; sos_a2 := a2 / a0;
             sos_v1 := 0; sos_v2 := 0 |}.

(** Modelled from the spec: [IIRFILTSOS(_execute)], which iirfilt.c
    calls and does not define.  Section 4.1:
    [w = x - a1*v1 - a2*v2; y = b0*w + b1*v1 + b2*v2; v2 = v1; v1 = w]. *)
Definition iirfiltsos_execute (_q : iirfiltsos) (_x : R) : iirfiltsos * R :=
  let w := _x - sos_a1 _q * sos_v1 _q - sos_a2 _q * sos_v2 _q in
  let y := sos_b0 _q * w + sos_b1 _q * sos_v1 _q + sos_b2 _q * sos_v2 _q in
  ({| sos_b0 := sos_b0 _q; sos_b1 := sos_b1 _q; sos_b2 := sos_b2 _q;
      sos_a0 := sos_a0 _q; sos_a1 := sos_a1 _q; sos_a2 := sos_a2 _q;
      sos_v1 := w; sos_v2 := sos_v1 _q |}, y).

(** Modelled from the spec: [IIRFILTSOS(_clear)], which iirfilt.c
    calls and does not define.  Section 4.1: zero the 2-element state; no-op on
    coefficients. *)
Definition iirfiltsos_clear (_q : iirfiltsos) : iirfiltsos :=
  {| sos_b0 := sos_b0 _q; sos_b1 := sos_b1 _q; sos_b2 := sos_b2 _q;
     sos_a0 := sos_a0 _q; sos_a1 := sos_a1 _q; sos_a2 := sos_a2 _q;
     sos_v1 := 0; sos_v2 := 0 |}.

(** The coefficients of a section, the part no operation but [create]
    sets. *)
Definition sos_coefficients (s : iirfiltsos) : list R * list R :=
  ([sos_b0 s; sos_b1 s; sos_b2 s], [sos_a0 s; sos_a1 s; sos_a2 s]).

(** A slot of the [qsos] array before a section is stored in it. *)
Definition sos_unset : iirfiltsos :=
  {| sos_b0 := 0; sos_b1 := 0; sos_b2 := 0;
     sos_a0 := 0; sos_a1 := 0; sos_a2 := 0;
     sos_v1 := 0; sos_v2 := 0 |}.

(** ** The filter object and its operations *)

Inductive iirfilt_type : Type :=
| IIRFILT_TYPE_NORM
| IIRFILT_TYPE_SOS.

(** [struct IIRFILT(_s)].  A member that a constructor leaves unset
    ([v], [nb], [na] for [create_sos]; [qsos], [nsos] for [create]) is
    the empty block or zero. *)
Record iirfilt : Type := mk_iirfilt {
  b : list R;
  a : list R;
  v : list R;
  n : N;
  nb : N;
  na : N;
  type : iirfilt_type;
  qsos : list iirfiltsos;
  nsos : N
}.

Definition set_v (_q : iirfilt) (v' : list R) : iirfilt :=
  {| b := b _q; a := a _q; v := v'; n := n _q; nb := nb _q; na := na _q;
     type := type _q; qsos := qsos _q; nsos := nsos _q |}.

Definition set_qsos (_q : iirfilt) (qsos' : list iirfiltsos) : iirfilt :=
  {| b := b _q; a := a _q; v := v _q; n := n _q; nb := nb _q; na := na _q;
     type := type _q; qsos := qsos'; nsos := nsos _q |}.

(** [IIRFILT(_clear)], lines 498-516. *)
Definition clear (_q : iirfilt) : result iirfilt :=
  match type _q with
  | IIRFILT_TYPE_SOS =>
      qsos' <- for_up
        (fun i blk => s <- Block.rd blk i ;; Block.wr blk i (iirfiltsos_clear s))
        0 (N.to_nat (nsos _q)) (qsos _q) ;;
      Ok (set_qsos _q qsos')
  | IIRFILT_TYPE_NORM =>
      v' <- for_up (fun i blk => Block.wr blk i 0)
        0 (N.to_nat (n _q)) (v _q) ;;
      Ok (set_v _q v')
  end.

(** [IIRFILT(_create)], lines 76-129.  The block of [b] is allocated
    with [na] elements and the block of [a] with [nb] elements, as the
    source has it. *)
Definition create (_b : list R) (_nb : N) (_a : list R) (_na : N)
  : result iirfilt :=
  if (_nb =? 0)%N then Exit numerator_length_zero
  else if (_na =? 0)%N then Exit denominator_length_zero
  else
    let q_n := if (_nb <? _na)%N then _na else _nb in
    let q_b := Block.malloc 0 _na in
    let q_a := Block.malloc 0 _nb in
    a0 <- Block.rd _a 0 ;;
    q_b <- for_up (fun i blk => x <- Block.rd _b i ;; Block.wr blk i (x / a0))
             0 (N.to_nat _nb) q_b ;;
    q_a <- for_up (fun i blk => x <- Block.rd _a i ;; Block.wr blk i (x / a0))
             0 (N.to_nat _na) q_a ;;
    let q_v := Block.malloc 0 q_n in
    clear {| b := q_b; a := q_a; v := q_v; n := q_n; nb := _nb; na := _na;
             type := IIRFILT_TYPE_NORM; qsos := []; nsos := 0%N |}.

(** The index [3*i+k] of [unsigned int] operands. *)
Definition sos_index (i k : nat) : nat :=
  N.to_nat (UInt.add (UInt.mul 3 (N.of_nat i)) (N.of_nat k)).

(** [IIRFILT(_create_sos)], lines 142-177.  [3*(q->nsos)] is a product
    of [unsigned int]; the number of bytes for [qsos] is computed in
    [size_t]. *)
Definition create_sos (_B _A : list R) (_nsos : N) : result iirfilt :=
  if (_nsos =? 0)%N then Exit no_second_order_section
  else
    let q_qsos := Block.malloc sos_unset _nsos in
    let q_n := UInt.mul _nsos 2 in
    let cnt := UInt.mul 3 _nsos in
    q_b <- Block.memmove (Block.malloc 0 cnt) _B cnt ;;
    q_a <- Block.memmove (Block.malloc 0 cnt) _A cnt ;;
    q_qsos <- for_up
      (fun i blk =>
         tt <- for_up
           (fun k (t : list R * list R) =>
              x <- Block.rd q_a (sos_index i k) ;;
              at' <- Block.wr (fst t) k x ;;
              y <- Block.rd q_b (sos_index i k) ;;
              bt' <- Block.wr (snd t) k y ;;
              Ok (at', bt'))
           0 3 ([0; 0; 0], [0; 0; 0]) ;;
         s <- iirfiltsos_create (snd tt) (fst tt) ;;
         Block.wr blk i s)
      0 (N.to_nat _nsos) q_qsos ;;
    Ok {| b := q_b; a := q_a; v := []; n := q_n; nb := 0%N; na := 0%N;
          type := IIRFILT_TYPE_SOS; qsos := q_qsos; nsos := _nsos |}.

(** [IIRFILT(_create_dc_blocker)], lines 372-389. *)
Definition create_dc_blocker (_alpha : R) : result iirfilt :=
  let a1 := -1 + _alpha in
  create [1; -1] 2 [1; a1] 2.

(** [IIRFILT(_execute_norm)], lines 523-589. *)
Definition execute_norm (_q : iirfilt) (_x : R) : result (iirfilt * R) :=
  v1 <- for_down
    (fun i blk => x <- Block.rd blk (i - 1) ;; Block.wr blk i x)
    (N.to_nat (UInt.sub (n _q) 1)) (v _q) ;;
  v0 <- for_up
    (fun i acc =>
       ai <- Block.rd (a _q) i ;; vi <- Block.rd v1 i ;; Ok (acc - ai * vi))
    1 (N.to_nat (na _q) - 1) _x ;;
  v2 <- Block.wr v1 0 v0 ;;
  y0 <- for_up
    (fun i acc =>
       bi <- Block.rd (b _q) i ;; vi <- Block.rd v2 i ;; Ok (acc + bi * vi))
    0 (N.to_nat (nb _q)) 0 ;;
  Ok (set_v _q v2, y0).

(** The state of the loop of [execute_sos]: the sections, [t0], [t1]. *)
Definition sos_step (i : nat) (st : list iirfiltsos * R * R)
  : result (list iirfiltsos * R * R) :=
  let '(blk, t0, _) := st in
  s <- Block.rd blk i ;;
  let (s', t1) := iirfiltsos_execute s t0 in
  blk' <- Block.wr blk i s' ;;
  Ok (blk', t1, t1).

(** [IIRFILT(_execute_sos)], lines 595-610. *)
Definition execute_sos (_q : iirfilt) (_x : R) : result (iirfilt * R) :=
  st <- for_up sos_step 0 (N.to_nat (nsos _q)) (qsos _q, _x, 0) ;;
  let '(blk, _, t1) := st in
  Ok (set_qsos _q blk, t1).

(** [IIRFILT(_execute)], lines 616-624. *)
Definition execute (_q : iirfilt) (_x : R) : result (iirfilt * R) :=
  match type _q with
  | IIRFILT_TYPE_NORM => execute_norm _q _x
  | IIRFILT_TYPE_SOS => execute_sos _q _x
  end.

(** [IIRFILT(_get_length)]. *)
Definition get_length (_q : iirfilt) : N := n _q.

(** A sequence of [execute] calls on one object, the outputs collected. *)
Fixpoint execute_block (_q : iirfilt) (xs : list R) : result (iirfilt * list R) :=
  match xs with
  | [] => Ok (_q, [])
  | x :: xs' =>
      r <- execute _q x ;;
      r' <- execute_block (fst r) xs' ;;
      Ok (fst r', snd r :: snd r')
  end.

(** ** [float complex] and the frequency response *)

Module Cplx.

Record complex : Type := mk { Re : R; Im : R }.

Definition of_real (x : R) : complex := mk x 0.
Definition I : complex := mk 0 1.

Definition add (z w : complex) : complex := mk (Re z + Re w) (Im z + Im w).

Definition mul (z w : complex) : complex :=
  mk (Re z * Re w - Im z * Im w) (Re z * Im w + Im z * Re w).

Definition div (z w : complex) : complex :=
  let d := Re w * Re w + Im w * Im w in
  mk ((Re z * Re w + Im z * Im w) / d) ((Im z * Re w - Re z * Im w) / d).

(** A complex operand times a real one. *)
Definition mulr (z : complex) (x : R) : complex := mk (Re z * x) (Im z * x).

(** A real operand times a complex one. *)
Definition rmul (x : R) (z : complex) : complex := mk (x * Re z) (x * Im z).

Definition cexpf (z : complex) : complex :=
  mk (exp (Re z) * cos (Im z)) (exp (Re z) * sin (Im z)).

End Cplx.

(** [cexpf(_Complex_I*2*M_PI*_fc*i)]. *)
Definition twiddle (_fc : R) (i : nat) : Cplx.complex :=
  Cplx.cexpf
    (Cplx.mulr (Cplx.mulr (Cplx.mulr (Cplx.mulr Cplx.I 2) PI) _fc) (INR i)).

(** The three-term sum
    [p[0]*cexpf(..*0) + p[1]*cexpf(..*1) + p[2]*cexpf(..*2)]. *)
Definition dft3 (p0 p1 p2 : R) (_fc : R) : Cplx.complex :=
  Cplx.add
    (Cplx.add (Cplx.rmul p0 (twiddle _fc 0)) (Cplx.rmul p1 (twiddle _fc 1)))
    (Cplx.rmul p2 (twiddle _fc 2)).

(** [IIRFILT(_freqresponse_sos)], lines 696-737.  Both [b] and [a] point
    into [_q->b] at [3*i], as the source has it (lines 720-721). *)
Definition freqresponse_sos (_q : iirfilt) (_fc : R) : result Cplx.complex :=
  for_up
    (fun i H =>
       let pb := N.to_nat (UInt.mul 3 (N.of_nat i)) in
       let pa := N.to_nat (UInt.mul 3 (N.of_nat i)) in
       b0 <- Block.rd (b _q) (pb + 0) ;;
       b1 <- Block.rd (b _q) (pb + 1) ;;
       b2 <- Block.rd (b _q) (pb + 2) ;;
       let Hb := dft3 b0 b1 b2 _fc in
       a0 <- Block.rd (b _q) (pa + 0) ;;
       a1 <- Block.rd (b _q) (pa + 1) ;;
       a2 <- Block.rd (b _q) (pa + 2) ;;
       let Ha := dft3 a0 a1 a2 _fc in
       Ok (Cplx.mul H (Cplx.div Hb Ha)))
    0 (N.to_nat (nsos _q)) (Cplx.of_real 1).

(** [IIRFILT(_freqresponse_tf)], lines 659-690. *)
Definition freqresponse_tf (_q : iirfilt) (_fc : R) : result Cplx.complex :=
  Hb <- for_up
    (fun i H =>
       bi <- Block.rd (b _q) i ;;
       Ok (Cplx.add H (Cplx.rmul bi (twiddle _fc i))))
    0 (N.to_nat (nb _q)) (Cplx.of_real 0) ;;
  Ha <- for_up
    (fun i H =>
       ai <- Block.rd (a _q) i ;;
       Ok (Cplx.add H (Cplx.rmul ai (twiddle _fc i))))
    0 (N.to_nat (na _q)) (Cplx.of_real 0) ;;
  Ok (Cplx.div Hb Ha).

(** [IIRFILT(_freqresponse)], lines 636-653; the [default] case of the
    [switch] has no value of the enumeration to run on. *)
Definition freqresponse (_q : iirfilt) (_fc : R) : result Cplx.complex :=
  match type _q with
  | IIRFILT_TYPE_NORM => freqresponse_tf _q _fc
  | IIRFILT_TYPE_SOS => freqresponse_sos _q _fc
  end.

(** ** Operations that call the design routines *)

Section Collaborators.

(** [iirdes_pll_active_lag(_w,_zeta,_K,bf,af)]: the design routine,
    which iirfilt.c calls and does not define; it fills [bf[3]] and
    [af[3]]. *)
Variable iirdes_pll_active_lag : R -> R -> R -> (R * R * R) * (R * R * R).

(** [iir_group_delay(b,nb,a,na,fc)], which iirfilt.c calls and does
    not define. *)
Variable iir_group_delay : list R -> N -> list R -> N -> R -> R.

(** [IIRFILT(_create_pll)], lines 395-442. *)
Definition create_pll (_w _zeta _K : R) : result iirfilt :=
  if Rle_dec _w 0 then Exit pll_bandwidth_range
  else if Rge_dec _w 1 then Exit pll_bandwidth_range
  else if Rle_dec _zeta 0 then Exit pll_damping_range
  else if Rge_dec _zeta 1 then Exit pll_damping_range
  else if Rle_dec _K 0 then Exit pll_gain_range
  else
    let '((bf0, bf1, bf2), (af0, af1, af2)) :=
      iirdes_pll_active_lag _w _zeta _K in
    create_sos [bf0; bf1; bf2] [af0; af1; af2] 1.

(** Modelled from the spec: [IIRFILTSOS(_groupdelay)], which iirfilt.c
    calls and does not define.  Section 4.1: computed from the 3-tap numerator
    and denominator via the generic group-delay formula. *)
Definition iirfiltsos_groupdelay (_q : iirfiltsos) (_fc : R) : R :=
  iir_group_delay [sos_b0 _q; sos_b1 _q; sos_b2 _q] 3
                  [sos_a0 _q; sos_a1 _q; sos_a2 _q] 3 _fc.

(** [IIRFILT(_groupdelay)], lines 742-780. *)
Definition groupdelay (_q : iirfilt) (_fc : R) : result R :=
  match type _q with
  | IIRFILT_TYPE_NORM =>
      fb <- for_up (fun i blk => x <- Block.rd (b _q) i ;; Block.wr blk i x)
              0 (N.to_nat (nb _q)) (Block.malloc 0 (nb _q)) ;;
      fa <- for_up (fun i blk => x <- Block.rd (a _q) i ;; Block.wr blk i x)
              0 (N.to_nat (na _q)) (Block.malloc 0 (na _q)) ;;
      Ok (iir_group_delay fb (nb _q) fa (na _q) _fc)
  | IIRFILT_TYPE_SOS =>
      for_up
        (fun i gd =>
           s <- Block.rd (qsos _q) i ;;
           Ok (gd + (iirfiltsos_groupdelay s _fc - 2)))
        0 (N.to_nat (nsos _q)) 0
  end.

(** The sum of the group delays of a list of sections. *)
Definition sections_groupdelay (ss : list iirfiltsos) (_fc : R) : R :=
  fold_right Rplus 0
    (map (fun s => iirfiltsos_groupdelay s _fc) ss).

End Collaborators.

(** ** Validly constructed filters *)

(** What [create] establishes and [execute] and [clear] keep, for the
    normal form: the form tag, the lengths and the sizes of the three
    blocks. *)
Record valid_norm (_q : iirfilt) : Prop := {
  vn_type : type _q = IIRFILT_TYPE_NORM;
  vn_nb : (1 <= nb _q)%N;
  vn_na : (1 <= na _q)%N;
  vn_n : n _q = N.max (na _q) (nb _q);
  vn_range : UInt.in_range (n _q);
  vn_b : length (b _q) = N.to_nat (nb _q);
  vn_a : length (a _q) = N.to_nat (na _q);
  vn_v : length (v _q) = N.to_nat (n _q);
  vn_qsos : qsos _q = [];
  vn_nsos : nsos _q = 0%N
}.

(** The same for the second-order-sections form. *)
Record valid_sos (_q : iirfilt) : Prop := {
  vs_type : type _q = IIRFILT_TYPE_SOS;
  vs_nsos : (1 <= nsos _q)%N;
  vs_range : UInt.in_range (nsos _q);
  vs_n : n _q = UInt.mul (nsos _q) 2;
  vs_qsos : length (qsos _q) = N.to_nat (nsos _q);
  vs_b : length (b _q) = N.to_nat (UInt.mul 3 (nsos _q));
  vs_a : length (a _q) = N.to_nat (UInt.mul 3 (nsos _q));
  vs_v : v _q = [];
  vs_nb : nb _q = 0%N;
  vs_na : na _q = 0%N
}.

Definition valid (_q : iirfilt) : Prop := valid_norm _q \/ valid_sos _q.

(** All-zero internal state. *)
Definition sos_cleared (s : iirfiltsos) : Prop := sos_v1 s = 0 /\ sos_v2 s = 0.

Definition state_zero (_q : iirfilt) : Prop :=
  Forall (fun x => x = 0) (v _q) /\ Forall sos_cleared (qsos _q).

(** Same coefficients, lengths and form; the state is left out. *)
Definition same_design (p q : iirfilt) : Prop :=
  b p = b q /\ a p = a q /\ n p = n q /\ nb p = nb q /\ na p = na q /\
  type p = type q /\ nsos p = nsos q /\
  length (v p) = length (v q) /\
  map sos_coefficients (qsos p) = map sos_coefficients (qsos q).

(** ** The quantities the specification names *)

(** The sum of [f lo], ..., [f (lo + cnt - 1)]. *)
Fixpoint sum_from (f : nat -> R) (lo cnt : nat) : R :=
  match cnt with
  | O => 0
  | S c => f lo + sum_from f (S lo) c
  end.

(** The series composition in the words of the specification: the
    signal before the first section is the input, the signal after
    section [i] is the output of section [i] on the signal before it. *)
Fixpoint section_signals (ss : list iirfiltsos) (x : R) : list R :=
  x :: match ss with
       | [] => []
       | s :: t => section_signals t (snd (iirfiltsos_execute s x))
       end.

(** The sections after each has consumed its own input signal. *)
Fixpoint section_updates (ss : list iirfiltsos) (x : R) : list iirfiltsos :=
  match ss with
  | [] => []
  | s :: t =>
      fst (iirfiltsos_execute s x)
        :: section_updates t (snd (iirfiltsos_execute s x))
  end.

(** The response the sections of the filter have: the product over the
    sections of the three-term sum of the numerator over the three-term
    sum of the denominator, both taken from the coefficient arrays the
    filter stores. *)
Fixpoint sections_response (bs as_ : list R) (k : nat) (_fc : R)
  : Cplx.complex :=
  match k with
  | O => Cplx.of_real 1
  | Datatypes.S k' =>
      Cplx.mul
        (sections_response bs as_ k' _fc)
        (Cplx.div
           (dft3 (nth (3 * k') bs 0) (nth (3 * k' + 1) bs 0)
                 (nth (3 * k' + 2) bs 0) _fc)
           (dft3 (nth (3 * k') as_ 0) (nth (3 * k' + 1) as_ 0)
                 (nth (3 * k' + 2) as_ 0) _fc))
  end.

(** The section built from the [i]-th triplets of two coefficient
    arrays. *)
Definition section_at (_B _A : list R) (i : nat) : result iirfiltsos :=
  iirfiltsos_create
    [nth (3 * i) _B 0; nth (3 * i + 1) _B 0; nth (3 * i + 2) _B 0]
    [nth (3 * i) _A 0; nth (3 * i + 1) _A 0; nth (3 * i + 2) _A 0].

(** The leading denominator coefficient of a design. *)
Definition design_a0 (d : (R * R * R) * (R * R * R)) : R :=
  fst (fst (snd d)).

(** ** Instances *)

(** One section with numerator [1, 0, 0] and denominator [2, 0, 0],
    as [create_sos] returns it. *)
Definition half_gain : iirfilt :=
  {| b := [1; 0; 0]; a := [2; 0; 0]; v := [];
     n := 2%N; nb := 0%N; na := 0%N;
     type := IIRFILT_TYPE_SOS;
     qsos := [ {| sos_b0 := 1 / 2; sos_b1 := 0 / 2; sos_b2 := 0 / 2;
                  sos_a0 := 2 / 2; sos_a1 := 0 / 2; sos_a2 := 0 / 2;
                  sos_v1 := 0; sos_v2 := 0 |} ];
     nsos := 1%N |}.

(** The filter of [create([1,-1],2,[1,-0.9],2)]. *)
Definition one_pole : iirfilt :=
  {| b := [1; -1]; a := [1; -9 / 10]; v := [0; 0];
     n := 2%N; nb := 2%N; na := 2%N;
     type := IIRFILT_TYPE_NORM; qsos := []; nsos := 0%N |}.

(** The filter of [create_sos] on the one section of a design
    [((b0,b1,b2),(a0,a1,a2))]. *)
Definition loop_filter (d : (R * R * R) * (R * R * R)) : iirfilt :=
  let '((b0, b1, b2), (a0, a1, a2)) := d in
  {| b := [b0; b1; b2]; a := [a0; a1; a2]; v := [];
     n := 2%N; nb := 0%N; na := 0%N;
     type := IIRFILT_TYPE_SOS;
     qsos := [ {| sos_b0 := b0 / a0; sos_b1 := b1 / a0; sos_b2 := b2 / a0;
                  sos_a0 := a0 / a0; sos_a1 := a1 / a0; sos_a2 := a2 / a0;
                  sos_v1 := 0; sos_v2 := 0 |} ];
     nsos := 1%N |}.

(** A group-delay routine that returns zero, to instantiate the
    statements on [groupdelay]. *)
Definition flat_group_delay (_b : list R) (_nb : N) (_a : list R) (_na : N)
  (_fc : R) : R := 0.

(** ** The direct-form recurrence, in closed form *)

(** The new first element of the buffer, from the buffer before the
    call: [x - sum_{i=1}^{na-1} a[i]*v[i-1]]. *)
Definition direct_form_state (a_ : list R) (na_ : nat) (v_ : list R) (x : R)
  : R :=
  x - sum_from (fun i => nth i a_ 0 * nth (i - 1) v_ 0) 1 (na_ - 1).

(** The output over a buffer: [sum_{i=0}^{nb-1} b[i]*v[i]]. *)
Definition direct_form_output (b_ : list R) (nb_ : nat) (v_ : list R) : R :=
  sum_from (fun i => nth i b_ 0 * nth i v_ 0) 0 nb_.

(** The buffer after one sample. *)
Definition norm_next (_q : iirfilt) (v_ : list R) (x : R) : list R :=
  direct_form_state (a _q) (N.to_nat (na _q)) v_ x :: removelast v_.

(** The output of one sample. *)
Definition norm_out (_q : iirfilt) (v_ : list R) (x : R) : R :=
  direct_form_output (b _q) (N.to_nat (nb _q)) (norm_next _q v_ x).

(** The buffer and the outputs after a sequence of samples. *)
Fixpoint norm_run (_q : iirfilt) (v_ : list R) (xs : list R)
  : list R * list R :=
  match xs with
  | [] => (v_, [])
  | x :: t =>
      let r := norm_run _q (norm_next _q v_ x) t in
      (fst r, norm_out _q v_ x :: snd r)
  end.

(** Sample-by-sample sum and scaling of two signals. *)
Fixpoint vadd (p q : list R) : list R :=
  match p, q with
  | x :: p', y :: q' => (x + y) :: vadd p' q'
  | _, _ => []
  end.

Definition vscale (c : R) (p : list R) : list R := map (Rmult c) p.

(** [sum_{i<k} c[i] * cexpf(j*2*pi*fc*i)], summed in the order of the
    index. *)
Fixpoint dft_sum (c : list R) (_fc : R) (k : nat) : Cplx.complex :=
  match k with
  | O => Cplx.of_real 0
  | S k' =>
      Cplx.add (dft_sum c _fc k') (Cplx.rmul (nth k' c 0) (twiddle _fc k'))
  end.

(** The filter of [create_dc_blocker(alpha)]. *)
Definition dc_blocker (_alpha : R) : iirfilt :=
  {| b := [1; -1]; a := [1; _alpha - 1]; v := [0; 0];
     n := 2%N; nb := 2%N; na := 2%N;
     type := IIRFILT_TYPE_NORM; qsos := []; nsos := 0%N |}.

(** ** Constructors that call the design routines *)

(** [for (i=0; i<cnt; i++) { B[i] = Bi[i]; A[i] = Ai[i]; }] on the
    pair of destination blocks. *)
Definition copy_both (Bi Ai : list R) (cnt : nat) (dst : list R * list R)
  : result (list R * list R) :=
  for_up
    (fun i (t : list R * list R) =>
       x <- Block.rd Bi i ;;
       B' <- Block.wr (fst t) i x ;;
       y <- Block.rd Ai i ;;
       A' <- Block.wr (snd t) i y ;;
       Ok (B', A'))
    0 cnt dst.

(** A complex operand divided by a real one. *)
Definition cdivr (z : Cplx.complex) (x : R) : Cplx.complex :=
  Cplx.mk (Cplx.Re z / x) (Cplx.Im z / x).

(** [r * cexpf(_Complex_I * M_PI / 180.0f * deg)], the form of the
    entries of the tables below. *)
Definition polar_deg (r deg : R) : Cplx.complex :=
  Cplx.rmul r
    (Cplx.cexpf (Cplx.mulr (cdivr (Cplx.mulr Cplx.I PI) 180) deg)).

(** The tables of [create_integrator], lines 256-276. *)
Definition zdi : list Cplx.complex :=
  [ Cplx.of_real (1.175839 * -1.0);
    polar_deg 3.371020 (-125.1125);
    polar_deg 3.371020 125.1125;
    polar_deg 4.549710 (-80.96404);
    polar_deg 4.549710 80.96404;
    polar_deg 5.223966 (-40.09347);
    polar_deg 5.223966 40.09347;
    Cplx.of_real 5.443743 ].

Definition pdi : list Cplx.complex :=
  [ Cplx.of_real (0.5805235 * -1.0);
    polar_deg 0.2332021 (-114.0968);
    polar_deg 0.2332021 114.0968;
    polar_deg 0.1814755 (-66.33969);
    polar_deg 0.1814755 66.33969;
    polar_deg 0.1641457 (-21.89539);
    polar_deg 0.1641457 21.89539;
    Cplx.of_real 1.0 ].

Definition kdi : Cplx.complex := Cplx.of_real (-1.89213380759321e-05).

(** The tables of [create_differentiator], lines 315-335. *)
Definition zdd : list Cplx.complex :=
  [ Cplx.of_real (1.702575 * -1.0);
    polar_deg 5.877385 (-221.4063);
    polar_deg 5.877385 221.4063;
    polar_deg 4.197421 (-144.5972);
    polar_deg 4.197421 144.5972;
    polar_deg 5.350284 (-66.88802);
    polar_deg 5.350284 66.88802;
    Cplx.of_real 1.0 ].

Definition pdd : list Cplx.complex :=
  [ Cplx.of_real (0.8476936 * -1.0);
    polar_deg 0.2990781 (-125.5188);
    polar_deg 0.2990781 125.5188;
    polar_deg 0.2232427 (-81.52326);
    polar_deg 0.2232427 81.52326;
    polar_deg 0.1958670 (-40.51510);
    polar_deg 0.1958670 40.51510;
    Cplx.of_real 0.1886088 ].

Definition kdd : Cplx.complex := Cplx.of_real 2.09049284907492e-05.

Definition conj (z : Cplx.complex) : Cplx.complex :=
  Cplx.mk (Cplx.Re z) (- Cplx.Im z).

Definition norm2 (z : Cplx.complex) : R :=
  Cplx.Re z * Cplx.Re z + Cplx.Im z * Cplx.Im z.

(** A table of eight roots: two real ones at its ends and three pairs
    of complex conjugates between them. *)
Definition conjugate_closed (t : list Cplx.complex) : Prop :=
  Cplx.Im (nth 0 t (Cplx.of_real 0)) = 0 /\
  Cplx.Im (nth 7 t (Cplx.of_real 0)) = 0 /\
  nth 2 t (Cplx.of_real 0) = conj (nth 1 t (Cplx.of_real 0)) /\
  nth 4 t (Cplx.of_real 0) = conj (nth 3 t (Cplx.of_real 0)) /\
  nth 6 t (Cplx.of_real 0) = conj (nth 5 t (Cplx.of_real 0)).

Section Design.

(** The enumerations of the design interface are declared in the
    library header; of their values the file names three. *)
Variables liquid_iirdes_filtertype liquid_iirdes_bandtype
          liquid_iirdes_format : Type.
Variables LIQUID_IIRDES_BANDPASS LIQUID_IIRDES_BANDSTOP
  : liquid_iirdes_bandtype.
Variable LIQUID_IIRDES_SOS : liquid_iirdes_format.
Variable bandtype_eq_dec :
  forall x y : liquid_iirdes_bandtype, {x = y} + {x <> y}.
Variable format_eq_dec :
  forall x y : liquid_iirdes_format, {x = y} + {x <> y}.

(** [liquid_iirdes(_ftype,_btype,_format,_order,_fc,_f0,_Ap,_As,B,A)],
    which iirfilt.c calls and does not define; it fills the blocks [B]
    and [A] it is given. *)
Variable liquid_iirdes :
  liquid_iirdes_filtertype -> liquid_iirdes_bandtype ->
  liquid_iirdes_format -> N -> R -> R -> R -> R ->
  list R -> list R -> list R * list R.

(** [iirdes_dzpk2sosf(zd,pd,n,kd,B,A)], which iirfilt.c calls and does
    not define; it fills the blocks [B] and [A] it is given. *)
Variable iirdes_dzpk2sosf :
  list Cplx.complex -> list Cplx.complex -> N -> Cplx.complex ->
  list R -> list R -> list R * list R.

(** The effective order [N] of lines 199-207. *)
Definition prototype_order (_btype : liquid_iirdes_bandtype) (_order : N)
  : N :=
  if bandtype_eq_dec _btype LIQUID_IIRDES_BANDPASS then UInt.mul _order 2
  else if bandtype_eq_dec _btype LIQUID_IIRDES_BANDSTOP then UInt.mul _order 2
  else _order.

(** [IIRFILT(_create_prototype)], lines 189-247.  A variable-length
    array of no element is the empty block. *)
Definition create_prototype
  (_ftype : liquid_iirdes_filtertype) (_btype : liquid_iirdes_bandtype)
  (_format : liquid_iirdes_format) (_order : N) (_fc _f0 _Ap _As : R)
  : result iirfilt :=
  let N_ := prototype_order _btype _order in
  let r := (N_ mod 2)%N in
  let L := (UInt.sub N_ r / 2)%N in
  let h_len :=
    if format_eq_dec _format LIQUID_IIRDES_SOS
    then UInt.mul 3 (UInt.add L r)
    else UInt.add N_ 1 in
  let BA := liquid_iirdes _ftype _btype _format _order _fc _f0 _Ap _As
              (Block.malloc 0 h_len) (Block.malloc 0 h_len) in
  BAc <- copy_both (fst BA) (snd BA) (N.to_nat h_len)
           (Block.malloc 0 h_len, Block.malloc 0 h_len) ;;
  if format_eq_dec _format LIQUID_IIRDES_SOS
  then create_sos (fst BAc) (snd BAc) (UInt.add L r)
  else create (fst BAc) h_len (snd BAc) h_len.

(** [IIRFILT(_create_integrator)], lines 250-306. *)
Definition create_integrator : result iirfilt :=
  let BAi := iirdes_dzpk2sosf zdi pdi 8 kdi
               (Block.malloc 0 12) (Block.malloc 0 12) in
  BA <- copy_both (fst BAi) (snd BAi) 12
          (Block.malloc 0 12, Block.malloc 0 12) ;;
  create_sos (fst BA) (snd BA) 4.

(** [IIRFILT(_create_differentiator)], lines 309-365. *)
Definition create_differentiator : result iirfilt :=
  let BAd := iirdes_dzpk2sosf zdd pdd 8 kdd
               (Block.malloc 0 12) (Block.malloc 0 12) in
  BA <- copy_both (fst BAd) (snd BAd) 12
          (Block.malloc 0 12, Block.malloc 0 12) ;;
  create_sos (fst BA) (snd BA) 4.

End Design.

(** A normal-form filter without feedback: two numerator taps, one
    denominator coefficient. *)
Definition two_tap : iirfilt :=
  {| b := [1; 2]; a := [1]; v := [0; 0];
     n := 2%N; nb := 2%N; na := 1%N;
     type := IIRFILT_TYPE_NORM; qsos := []; nsos := 0%N |}.

(** Design routines that leave the blocks they are given as they are,
    to instantiate the statements on the constructors that call them. *)
Definition idle_iirdes (_ftype : unit) (_btype _format : nat) (_order : N)
  (_fc _f0 _Ap _As : R) (B A : list R) : list R * list R := (B, A).

Definition idle_dzpk2sosf (_zd _pd : list Cplx.complex) (_n : N)
  (_kd : Cplx.complex) (B A : list R) : list R * list R := (B, A).

(** * Part II: properties *)

(** ** The outcome monad, machine integers and blocks *)

Lemma bind_Ok {A B : Type} (x : A) (k : A -> result B) : bind (Ok x) k = k x.
Proof. reflexivity. Qed.

Lemma bind_Ok_inv {A B : Type} (m : result A) (k : A -> result B) (y : B) :
  bind m k = Ok y -> exists x, m = Ok x /\ k x = Ok y.
Proof. destruct m; simpl; intros H; try discriminate. now exists x. Qed.

Lemma bind_Exit_inv {A B : Type} (m : result A) (k : A -> result B) (e : fatal) :
  bind m k = Exit e -> m = Exit e \/ exists x, m = Ok x /\ k x = Exit e.
Proof.
  destruct m; simpl; intros H; try discriminate.
  - right. now exists x.
  - left. congruence.
Qed.

Module UIntFacts.

Import UInt.

Lemma wrap_small (x : N) : in_range x -> wrap x = x.
Proof. intros H. apply N.mod_small. exact H. Qed.

Lemma wrap_in_range (x : N) : in_range (wrap x).
Proof. apply N.mod_lt. discriminate. Qed.

Lemma sub_small (x y : N) : (y <= x)%N -> in_range x -> sub x y = (x - y)%N.
Proof.
  intros Hyx Hx. unfold sub, wrap, in_range in *.
  assert (Hy : (y < modulus)%N) by lia.
  rewrite (N.mod_small y) by exact Hy.
  replace (x + modulus - y)%N with ((x - y) + 1 * modulus)%N by lia.
  rewrite N.Div0.mod_add. apply N.mod_small. lia.
Qed.

End UIntFacts.

Module BlockFacts.

Import Block.

Section Elements.

Context {T : Type}.

Lemma malloc_length (d : T) (k : N) : length (malloc d k) = N.to_nat k.
Proof. apply repeat_length. Qed.

Lemma upd_length (p : list T) (i : nat) (x : T) : length (upd p i x) = length p.
Proof.
  revert i. induction p as [|h t IH]; intros [|j]; simpl; auto.
Qed.

Lemma upd_nth_same (p : list T) (i : nat) (x d : T) :
  (i < length p)%nat -> nth i (upd p i x) d = x.
Proof.
  revert i. induction p as [|h t IH]; intros [|j] H; simpl in *; try lia; auto.
  apply IH. lia.
Qed.

Lemma upd_nth_other (p : list T) (i j : nat) (x d : T) :
  i <> j -> nth j (upd p i x) d = nth j p d.
Proof.
  revert i j.
  induction p as [|h t IH]; intros [|i] [|j] H; simpl; try congruence.
  apply IH. congruence.
Qed.

Lemma rd_in (p : list T) (i : nat) (d : T) :
  (i < length p)%nat -> rd p i = Ok (nth i p d).
Proof.
  intros H. unfold rd.
  rewrite (nth_error_nth' p d H). reflexivity.
Qed.

Lemma rd_Ok (p : list T) (i : nat) (x : T) :
  rd p i = Ok x -> (i < length p)%nat /\ forall d, nth i p d = x.
Proof.
  unfold rd. destruct (nth_error p i) eqn:E; intros H; inversion H; subst.
  split.
  - apply nth_error_Some. congruence.
  - intros d. now apply nth_error_nth.
Qed.

Lemma wr_in (p : list T) (i : nat) (x : T) :
  (i < length p)%nat -> wr p i x = Ok (upd p i x).
Proof.
  intros H. unfold wr. apply Nat.ltb_lt in H. now rewrite H.
Qed.

Lemma wr_Ok (p q : list T) (i : nat) (x : T) :
  wr p i x = Ok q -> (i < length p)%nat /\ q = upd p i x.
Proof.
  unfold wr. destruct (i <? length p)%nat eqn:E; intros H; inversion H.
  split; [now apply Nat.ltb_lt|reflexivity].
Qed.

End Elements.

End BlockFacts.

Module CplxFacts.

Import Cplx.

Lemma eq_parts (z w : complex) : Re z = Re w -> Im z = Im w -> z = w.
Proof. destruct z, w; simpl; intros -> ->; reflexivity. Qed.

Lemma cexpf_0 : cexpf (mk 0 0) = mk 1 0.
Proof.
  unfold cexpf; simpl. rewrite exp_0, cos_0, sin_0.
  apply eq_parts; simpl; lra.
Qed.

End CplxFacts.

(** ** The loops of [execute_norm] *)

Lemma advance_buffer (hi : nat) : forall p : list R,
  (hi < length p)%nat ->
  exists p',
    for_down (fun i blk => x <- Block.rd blk (i - 1) ;; Block.wr blk i x) hi p
      = Ok p' /\
    length p' = length p /\
    (forall i, (1 <= i <= hi)%nat -> nth i p' 0 = nth (i - 1) p 0) /\
    (forall i, i = O \/ (hi < i)%nat -> nth i p' 0 = nth i p 0).
Proof.
  induction hi as [|j IH]; intros p Hlen.
  - exists p. simpl. repeat split; auto. intros i Hi. lia.
  - simpl for_down. rewrite Nat.sub_0_r.
    rewrite (BlockFacts.rd_in p j 0) by lia. simpl bind.
    rewrite BlockFacts.wr_in by lia. simpl bind.
    set (w := Block.upd p (S j) (nth j p 0)).
    assert (Hw : length w = length p) by apply BlockFacts.upd_length.
    destruct (IH w) as (p' & Hrun & Hlen' & Hshift & Hrest); [lia|].
    exists p'. split; [exact Hrun|]. split; [congruence|]. split.
    + intros i Hi. destruct (Nat.eq_dec i (S j)) as [->|Hne].
      * rewrite Hrest by (right; lia). unfold w.
        rewrite BlockFacts.upd_nth_same by lia.
        now rewrite Nat.sub_succ, Nat.sub_0_r.
      * rewrite Hshift by lia. unfold w.
        apply BlockFacts.upd_nth_other. lia.
    + intros i Hi. rewrite Hrest by lia. unfold w.
      apply BlockFacts.upd_nth_other. lia.
Qed.

Lemma feedback_loop (c p : list R) (cnt : nat) : forall (lo : nat) (acc : R),
  (lo + cnt <= length c)%nat -> (lo + cnt <= length p)%nat ->
  for_up (fun i acc =>
            ai <- Block.rd c i ;; vi <- Block.rd p i ;; Ok (acc - ai * vi))
         lo cnt acc
  = Ok (acc - sum_from (fun i => nth i c 0 * nth i p 0) lo cnt).
Proof.
  induction cnt as [|k IH]; intros lo acc Hc Hp; simpl.
  - f_equal. lra.
  - rewrite (BlockFacts.rd_in c lo 0) by lia. simpl.
    rewrite (BlockFacts.rd_in p lo 0) by lia. simpl.
    rewrite IH by lia. f_equal. lra.
Qed.

Lemma feedforward_loop (c p : list R) (cnt : nat) : forall (lo : nat) (acc : R),
  (lo + cnt <= length c)%nat -> (lo + cnt <= length p)%nat ->
  for_up (fun i acc =>
            bi <- Block.rd c i ;; vi <- Block.rd p i ;; Ok (acc + bi * vi))
         lo cnt acc
  = Ok (acc + sum_from (fun i => nth i c 0 * nth i p 0) lo cnt).
Proof.
  induction cnt as [|k IH]; intros lo acc Hc Hp; simpl.
  - f_equal. lra.
  - rewrite (BlockFacts.rd_in c lo 0) by lia. simpl.
    rewrite (BlockFacts.rd_in p lo 0) by lia. simpl.
    rewrite IH by lia. f_equal. lra.
Qed.

Lemma sum_from_ext (f g : nat -> R) (cnt : nat) : forall lo : nat,
  (forall i, (lo <= i < lo + cnt)%nat -> f i = g i) ->
  sum_from f lo cnt = sum_from g lo cnt.
Proof.
  induction cnt as [|k IH]; intros lo H; simpl; [reflexivity|].
  rewrite (H lo) by lia. f_equal. apply IH. intros i Hi. apply H. lia.
Qed.

Lemma execute_norm_run (_q : iirfilt) (_x : R) :
  valid_norm _q ->
  exists (v' : list R) (y : R),
    execute_norm _q _x = Ok (set_v _q v', y) /\
    length v' = length (v _q) /\
    (forall i, (1 <= i < N.to_nat (n _q))%nat ->
               nth i v' 0 = nth (i - 1) (v _q) 0) /\
    nth 0 v' 0 =
      _x - sum_from (fun i => nth i (a _q) 0 * nth i v' 0)
                    1 (N.to_nat (na _q) - 1) /\
    y = sum_from (fun i => nth i (b _q) 0 * nth i v' 0)
                 0 (N.to_nat (nb _q)).
Proof.
  intros [Ht Hnb Hna Hn Hr Hb Ha Hv _ _].
  assert (Hn1 : (1 <= n _q)%N) by lia.
  assert (Hsub : N.to_nat (UInt.sub (n _q) 1) = (N.to_nat (n _q) - 1)%nat).
  { rewrite UIntFacts.sub_small by assumption. lia. }
  destruct (advance_buffer (N.to_nat (n _q) - 1) (v _q))
    as (v1 & Hrun & Hlen1 & Hshift & Hrest); [lia|].
  set (v0 := _x - sum_from (fun i => nth i (a _q) 0 * nth i v1 0)
                           1 (N.to_nat (na _q) - 1)).
  set (v2 := Block.upd v1 0 v0).
  assert (Hlen2 : length v2 = length v1) by apply BlockFacts.upd_length.
  exists v2, (sum_from (fun i => nth i (b _q) 0 * nth i v2 0)
                       0 (N.to_nat (nb _q))).
  split.
  - unfold execute_norm. rewrite Hsub, Hrun. simpl bind.
    rewrite feedback_loop by lia. simpl bind.
    rewrite BlockFacts.wr_in by lia. simpl bind.
    fold v0. fold v2.
    rewrite feedforward_loop by lia. simpl bind.
    now rewrite Rplus_0_l.
  - split; [congruence|]. split; [|split].
    + intros i Hi. unfold v2.
      rewrite BlockFacts.upd_nth_other by lia. apply Hshift. lia.
    + unfold v2 at 1. rewrite BlockFacts.upd_nth_same by lia.
      unfold v0. f_equal. apply sum_from_ext. intros i Hi.
      unfold v2. now rewrite BlockFacts.upd_nth_other by lia.
    + reflexivity.
Qed.

(** C1.  On a validly constructed normal-form filter, [execute_norm]
    returns normally; the new buffer holds the old one moved up by one
    place ([v'[i] = v[i-1]] for [1 <= i < n]), its first element is
    [x - sum_{i=1}^{na-1} a[i]*v'[i]], and the output is
    [sum_{i=0}^{nb-1} b[i]*v'[i]] over that new buffer. *)
Theorem execute_norm_spec (_q : iirfilt) (_x : R) :
  valid_norm _q ->
  exists (v' : list R) (y : R),
    execute_norm _q _x = Ok (set_v _q v', y) /\
    length v' = length (v _q) /\
    (forall i, (1 <= i < N.to_nat (n _q))%nat ->
               nth i v' 0 = nth (i - 1) (v _q) 0) /\
    nth 0 v' 0 =
      _x - sum_from (fun i => nth i (a _q) 0 * nth i v' 0)
                    1 (N.to_nat (na _q) - 1) /\
    y = sum_from (fun i => nth i (b _q) 0 * nth i v' 0)
                 0 (N.to_nat (nb _q)).
Proof. exact (execute_norm_run _q _x). Qed.

(** ** Loops that fill a block *)

Lemma for_up_fill {T : Type} (body : nat -> list T -> result (list T))
  (g : nat -> T) (len cnt : nat) : forall (lo : nat) (blk : list T),
  (forall i p, (lo <= i < lo + cnt)%nat -> length p = len ->
               body i p = Ok (Block.upd p i (g i))) ->
  (lo + cnt <= len)%nat -> length blk = len ->
  exists blk',
    for_up body lo cnt blk = Ok blk' /\ length blk' = len /\
    (forall i d, (lo <= i < lo + cnt)%nat -> nth i blk' d = g i) /\
    (forall i d, ~ (lo <= i < lo + cnt)%nat -> nth i blk' d = nth i blk d).
Proof.
  induction cnt as [|k IH]; intros lo blk Hbody Hle Hlen.
  - exists blk. simpl. repeat split; auto. intros i d Hi. lia.
  - simpl. rewrite Hbody by (auto; lia). simpl.
    destruct (IH (S lo) (Block.upd blk lo (g lo)))
      as (blk' & Hrun & Hlen' & Hnew & Hold).
    + intros i p Hi Hp. apply Hbody; [lia|exact Hp].
    + lia.
    + now rewrite BlockFacts.upd_length.
    + exists blk'. split; [exact Hrun|]. split; [exact Hlen'|]. split.
      * intros i d Hi. destruct (Nat.eq_dec i lo) as [->|Hne].
        -- rewrite Hold by lia. apply BlockFacts.upd_nth_same. lia.
        -- apply Hnew. lia.
      * intros i d Hi. rewrite Hold by lia.
        apply BlockFacts.upd_nth_other. lia.
Qed.

(** The loop [for (i=0; i<k; i++) dst[i] = src[i] / a0] on blocks of
    [k] elements. *)
Lemma normalize_loop (src : list R) (a0 : R) (blk : list R) :
  length blk = length src ->
  for_up (fun i p => x <- Block.rd src i ;; Block.wr p i (x / a0))
         0 (length src) blk
  = Ok (map (fun x => x / a0) src).
Proof.
  intros Hlen.
  destruct (for_up_fill
              (fun i p => x <- Block.rd src i ;; Block.wr p i (x / a0))
              (fun i => nth i src 0 / a0) (length src) (length src) 0 blk)
    as (blk' & Hrun & Hlen' & Hnew & _).
  - intros i p Hi Hp. rewrite (BlockFacts.rd_in src i 0) by lia. simpl.
    apply BlockFacts.wr_in. lia.
  - lia.
  - exact Hlen.
  - rewrite Hrun. f_equal.
    apply (nth_ext _ _ 0 (0 / a0)); [now rewrite length_map|].
    intros i Hi. rewrite Hnew by lia.
    rewrite (map_nth (fun x => x / a0)). reflexivity.
Qed.

(** The loop [for (i=0; i<n; i++) v[i] = 0] on a block of [n] elements. *)
Lemma zero_loop (blk : list R) :
  for_up (fun i p => Block.wr p i 0) 0 (length blk) blk
  = Ok (repeat 0 (length blk)).
Proof.
  destruct (for_up_fill (fun i p => Block.wr p i 0)
              (fun _ => 0) (length blk) (length blk) 0 blk)
    as (blk' & Hrun & Hlen' & Hnew & _).
  - intros i p Hi Hp. apply BlockFacts.wr_in. lia.
  - lia.
  - reflexivity.
  - rewrite Hrun. f_equal.
    apply (nth_ext _ _ 0 0); [now rewrite repeat_length|].
    intros i Hi. rewrite Hnew by lia.
    now rewrite nth_repeat.
Qed.

(** A loop that writes at [lo], with fewer than [lo+1] elements in the
    block, stops on the access. *)
Lemma for_up_overrun {T : Type} (body : nat -> list T -> result (list T))
  (cnt : nat) : forall (lo : nat) (blk : list T),
  (forall i p, (length p <= i)%nat -> body i p = Fault) ->
  (forall i p p', body i p = Ok p' -> length p' = length p) ->
  (forall i p e, body i p <> Exit e) ->
  (length blk < lo + cnt)%nat -> (lo <= length blk)%nat ->
  for_up body lo cnt blk = Fault.
Proof.
  induction cnt as [|k IH]; intros lo blk Hout Hkeep Hnoexit Hlt Hle.
  - lia.
  - simpl. destruct (body lo blk) as [p'| e |] eqn:E; simpl.
    + apply IH; auto.
      * rewrite (Hkeep _ _ _ E). lia.
      * rewrite (Hkeep _ _ _ E).
        destruct (Nat.eq_dec lo (length blk)) as [->|Hne]; [|lia].
        rewrite Hout in E by lia. discriminate.
    + exfalso. exact (Hnoexit _ _ _ E).
    + reflexivity.
Qed.

(** ** Outcomes of the loops *)

Lemma for_up_no_exit {S : Type} (body : nat -> S -> result S) (cnt : nat) :
  forall (lo : nat) (s : S) (e : fatal),
  (forall i s', body i s' <> Exit e) -> for_up body lo cnt s <> Exit e.
Proof.
  induction cnt as [|k IH]; intros lo s e Hbody; simpl; [discriminate|].
  destruct (body lo s) as [s'| e' |] eqn:E; simpl.
  - now apply IH.
  - intros H. apply (Hbody lo s). congruence.
  - discriminate.
Qed.

Lemma rd_no_exit {T : Type} (p : list T) (i : nat) (e : fatal) :
  Block.rd p i <> Exit e.
Proof. unfold Block.rd. destruct (nth_error p i); discriminate. Qed.

Lemma wr_no_exit {T : Type} (p : list T) (i : nat) (x : T) (e : fatal) :
  Block.wr p i x <> Exit e.
Proof. unfold Block.wr. destruct (i <? length p)%nat; discriminate. Qed.

Lemma rd_wr_no_exit {T : Type} (src : list T) (f : T -> T) (i : nat)
  (p : list T) (e : fatal) :
  (x <- Block.rd src i ;; Block.wr p i (f x)) <> Exit e.
Proof.
  destruct (Block.rd src i) as [x| e' |] eqn:E; simpl.
  - apply wr_no_exit.
  - exfalso. exact (rd_no_exit _ _ _ E).
  - discriminate.
Qed.

Lemma clear_no_exit (_q : iirfilt) (e : fatal) : clear _q <> Exit e.
Proof.
  unfold clear. destruct (type _q).
  - destruct (for_up _ _ _ _) as [p| e' |] eqn:E; simpl; try discriminate.
    exfalso. revert E. apply for_up_no_exit. intros i s'. apply wr_no_exit.
  - destruct (for_up _ _ _ _) as [p| e' |] eqn:E; simpl; try discriminate.
    exfalso. revert E. apply for_up_no_exit. intros i s'.
    apply (rd_wr_no_exit s' iirfiltsos_clear).
Qed.

(** ** [clear] *)

Lemma clear_norm (_q : iirfilt) :
  type _q = IIRFILT_TYPE_NORM -> length (v _q) = N.to_nat (n _q) ->
  clear _q = Ok (set_v _q (repeat 0 (N.to_nat (n _q)))).
Proof.
  intros Ht Hv. unfold clear. rewrite Ht, <- Hv, zero_loop. reflexivity.
Qed.

Lemma clear_sections : forall pre post : list iirfiltsos,
  for_up (fun i blk => s <- Block.rd blk i ;; Block.wr blk i (iirfiltsos_clear s))
         (length pre) (length post) (pre ++ post)
  = Ok (pre ++ map iirfiltsos_clear post).
Proof.
  intros pre post. revert pre.
  induction post as [|s t IH]; intros pre; simpl; [reflexivity|].
  unfold Block.rd. rewrite nth_error_app2, Nat.sub_diag by lia. simpl.
  unfold Block.wr. rewrite length_app. simpl.
  replace (length pre <? length pre + S (length t))%nat with true
    by (symmetry; apply Nat.ltb_lt; lia).
  simpl.
  assert (Hupd : forall (l : list iirfiltsos) x y r,
             Block.upd (l ++ x :: r) (length l) y = l ++ y :: r).
  { induction l as [|h l IHl]; intros; simpl; [reflexivity|].
    now rewrite IHl. }
  rewrite Hupd.
  specialize (IH (pre ++ [iirfiltsos_clear s])).
  rewrite length_app in IH. simpl in IH.
  rewrite Nat.add_1_r, <- !app_assoc in IH. simpl in IH.
  exact IH.
Qed.

Lemma clear_sos (_q : iirfilt) :
  type _q = IIRFILT_TYPE_SOS -> length (qsos _q) = N.to_nat (nsos _q) ->
  clear _q = Ok (set_qsos _q (map iirfiltsos_clear (qsos _q))).
Proof.
  intros Ht Hv. unfold clear. rewrite Ht, <- Hv.
  pose proof (clear_sections [] (qsos _q)) as H. simpl in H.
  rewrite H. reflexivity.
Qed.

(** ** [create] *)

(** With as many numerator as denominator coefficients, [create]
    returns the filter of the coefficients divided by [_a[0]], with an
    all-zero buffer. *)
Lemma create_equal_lengths (_b _a : list R) (k : N) :
  (1 <= k)%N -> length _b = N.to_nat k -> length _a = N.to_nat k ->
  create _b k _a k =
  Ok {| b := map (fun x => x / nth 0 _a 0) _b;
        a := map (fun x => x / nth 0 _a 0) _a;
        v := repeat 0 (N.to_nat k);
        n := k; nb := k; na := k;
        type := IIRFILT_TYPE_NORM; qsos := []; nsos := 0%N |}.
Proof.
  intros Hk Hb Ha. unfold create.
  destruct (N.eqb_spec k 0) as [->|_]; [lia|].
  rewrite N.ltb_irrefl.
  rewrite (BlockFacts.rd_in _a 0 0) by lia. simpl bind.
  rewrite <- Hb at 1. rewrite normalize_loop
    by (rewrite BlockFacts.malloc_length; lia).
  simpl bind.
  rewrite <- Ha at 1. rewrite normalize_loop
    by (rewrite BlockFacts.malloc_length; lia).
  simpl bind.
  rewrite clear_norm; [reflexivity|reflexivity|].
  simpl. apply BlockFacts.malloc_length.
Qed.

Lemma create_exit (_b _a : list R) (_nb _na : N) :
  (exists e, create _b _nb _a _na = Exit e) <-> (_nb = 0 \/ _na = 0)%N.
Proof.
  unfold create. split.
  - intros [e H].
    destruct (N.eqb_spec _nb 0) as [Hb|Hb]; [now left|].
    destruct (N.eqb_spec _na 0) as [Ha|Ha]; [now right|].
    exfalso.
    apply bind_Exit_inv in H as [H|(a0 & _ & H)];
      [exact (rd_no_exit _ _ _ H)|].
    apply bind_Exit_inv in H as [H|(qb & _ & H)].
    { revert H. apply for_up_no_exit. intros i s'.
      apply (rd_wr_no_exit _b (fun x => x / a0)). }
    apply bind_Exit_inv in H as [H|(qa & _ & H)].
    { revert H. apply for_up_no_exit. intros i s'.
      apply (rd_wr_no_exit _a (fun x => x / a0)). }
    exact (clear_no_exit _ _ H).
  - intros [->| ->].
    + exists numerator_length_zero. reflexivity.
    + destruct (N.eqb_spec _nb 0).
      * exists numerator_length_zero. reflexivity.
      * exists denominator_length_zero. reflexivity.
Qed.

Lemma create_Ok_inv (_b _a : list R) (_nb _na : N) (q : iirfilt) :
  create _b _nb _a _na = Ok q ->
  type q = IIRFILT_TYPE_NORM /\ nb q = _nb /\ na q = _na /\
  n q = N.max _na _nb /\ v q = repeat 0 (N.to_nat (n q)) /\
  length (b q) = N.to_nat _na /\ length (a q) = N.to_nat _nb.
Proof.
  unfold create.
  destruct (N.eqb_spec _nb 0) as [Hb|Hb]; [discriminate|].
  destruct (N.eqb_spec _na 0) as [Ha|Ha]; [discriminate|].
  intros H.
  apply bind_Ok_inv in H as (a0 & _ & H).
  apply bind_Ok_inv in H as (qb & Hqb & H).
  apply bind_Ok_inv in H as (qa & Hqa & H).
  rewrite clear_norm in H by (try reflexivity; simpl; apply BlockFacts.malloc_length).
  inversion H; subst q; clear H. simpl.
  assert (Hkeep : forall (src : list R) cnt lo p p',
             for_up (fun i blk => x <- Block.rd src i ;; Block.wr blk i (x / a0))
                    lo cnt p = Ok p' -> length p' = length p).
  { intros src cnt. induction cnt as [|k IH]; intros lo p p' Hrun; simpl in Hrun.
    - congruence.
    - apply bind_Ok_inv in Hrun as (p1 & Hstep & Hrun).
      apply bind_Ok_inv in Hstep as (x & _ & Hwr).
      apply BlockFacts.wr_Ok in Hwr as [_ ->].
      rewrite (IH _ _ _ Hrun). apply BlockFacts.upd_length. }
  apply Hkeep in Hqb. apply Hkeep in Hqa.
  rewrite BlockFacts.malloc_length in Hqb, Hqa.
  repeat split; auto.
  destruct (N.ltb_spec _nb _na); lia.
Qed.

(** With different numbers of numerator and denominator coefficients,
    one of the two normalization loops runs past the end of its block:
    [q->b] has [_na] elements and is written at [0.._nb-1], [q->a] has
    [_nb] elements and is written at [0.._na-1]. *)
Lemma create_unequal_lengths (_b _a : list R) (_nb _na : N) :
  (1 <= _nb)%N -> (1 <= _na)%N -> _nb <> _na ->
  length _b = N.to_nat _nb -> length _a = N.to_nat _na ->
  create _b _nb _a _na = Fault.
Proof.
  intros Hnb Hna Hne Hb Ha. unfold create.
  destruct (N.eqb_spec _nb 0) as [?|_]; [lia|].
  destruct (N.eqb_spec _na 0) as [?|_]; [lia|].
  rewrite (BlockFacts.rd_in _a 0 0) by lia. simpl bind.
  set (a0 := nth 0 _a 0).
  assert (Hover : forall (src : list R) cnt p,
             (length p < cnt)%nat ->
             for_up (fun i blk => x <- Block.rd src i ;; Block.wr blk i (x / a0))
                    0 cnt p = Fault).
  { intros src cnt p Hlt. apply for_up_overrun; try lia.
    - intros i q Hi. destruct (Block.rd src i) as [x| e |] eqn:E; simpl.
      + unfold Block.wr. apply Nat.ltb_ge in Hi. now rewrite Hi.
      + exfalso. exact (rd_no_exit _ _ _ E).
      + reflexivity.
    - intros i q q' Hstep.
      apply bind_Ok_inv in Hstep as (x & _ & Hwr).
      apply BlockFacts.wr_Ok in Hwr as [_ ->]. apply BlockFacts.upd_length.
    - intros i q e. apply (rd_wr_no_exit src (fun x => x / a0)). }
  destruct (N.lt_ge_cases _na _nb) as [Hlt|Hge].
  - rewrite Hover; [reflexivity|]. rewrite BlockFacts.malloc_length. lia.
  - destruct (for_up_fill
                (fun i p => x <- Block.rd _b i ;; Block.wr p i (x / a0))
                (fun i => nth i _b 0 / a0) (N.to_nat _na) (N.to_nat _nb) 0
                (Block.malloc 0 _na)) as (qb & Hrun & _).
    + intros i p Hi Hp. rewrite (BlockFacts.rd_in _b i 0) by lia. simpl.
      apply BlockFacts.wr_in. lia.
    + lia.
    + apply BlockFacts.malloc_length.
    + rewrite Hrun. simpl bind.
      rewrite Hover; [reflexivity|]. rewrite BlockFacts.malloc_length. lia.
Qed.

(** Where [create] does return ([_nb = _na]), the stored coefficients
    are the given ones over [_a[0]], and the leading denominator
    coefficient is one. *)
Lemma create_normalizes (_b _a : list R) (k : N) :
  (1 <= k)%N -> length _b = N.to_nat k -> length _a = N.to_nat k ->
  nth 0 _a 0 <> 0 ->
  exists q,
    create _b k _a k = Ok q /\
    (forall i, (i < N.to_nat k)%nat ->
               nth i (b q) 0 = nth i _b 0 / nth 0 _a 0) /\
    (forall i, (i < N.to_nat k)%nat ->
               nth i (a q) 0 = nth i _a 0 / nth 0 _a 0) /\
    nth 0 (a q) 0 = 1.
Proof.
  intros Hk Hb Ha Ha0. eexists. split; [now apply create_equal_lengths|].
  simpl. set (a0 := nth 0 _a 0) in *.
  assert (Hmap : forall l i, (i < length l)%nat ->
             nth i (map (fun x => x / a0) l) 0 = nth i l 0 / a0).
  { intros l i Hi. rewrite (nth_indep _ 0 (0 / a0)) by now rewrite length_map.
    apply (map_nth (fun x => x / a0)). }
  split; [|split].
  - intros i Hi. apply Hmap. lia.
  - intros i Hi. apply Hmap. lia.
  - rewrite Hmap by lia. fold a0. now field.
Qed.

(** C3.  [create] with two numerator coefficients and one denominator
    coefficient, [_a[0] = 1]: the block of [q->b] is allocated with
    [_na = 1] element (line 100) and the loop of line 112 writes
    [q->b[1]], outside of it.  Nothing is stored at [b[1]/a[0]]. *)
Theorem create_numerator_overrun : create [1; 1] 2 [1] 1 = Fault.
Proof. apply create_unequal_lengths; try reflexivity; lia. Qed.

(** ** [execute_sos] *)

Lemma upd_middle {T : Type} (l : list T) (x y : T) (r : list T) :
  Block.upd (l ++ x :: r) (length l) y = l ++ y :: r.
Proof. induction l as [|h l IH]; simpl; [reflexivity|now rewrite IH]. Qed.

Lemma section_signals_length (ss : list iirfiltsos) : forall x,
  length (section_signals ss x) = S (length ss).
Proof. induction ss as [|s t IH]; intros x; simpl; [reflexivity|now rewrite IH]. Qed.

Lemma section_updates_length (ss : list iirfiltsos) : forall x,
  length (section_updates ss x) = length ss.
Proof. induction ss as [|s t IH]; intros x; simpl; [reflexivity|now rewrite IH]. Qed.

Lemma section_signals_head (ss : list iirfiltsos) (x : R) :
  nth 0 (section_signals ss x) 0 = x.
Proof. destruct ss; reflexivity. Qed.

Lemma section_signals_step (ss : list iirfiltsos) : forall (x : R) (i : nat),
  (i < length ss)%nat ->
  nth (S i) (section_signals ss x) 0 =
  snd (iirfiltsos_execute (nth i ss sos_unset) (nth i (section_signals ss x) 0)).
Proof.
  induction ss as [|s t IH]; intros x i Hi; simpl in Hi; [lia|].
  destruct i as [|j].
  - simpl. apply section_signals_head.
  - change (nth (S (S j)) (section_signals (s :: t) x) 0)
      with (nth (S j) (section_signals t (snd (iirfiltsos_execute s x))) 0).
    rewrite IH by lia. reflexivity.
Qed.

Lemma section_updates_nth (ss : list iirfiltsos) : forall (x : R) (i : nat),
  (i < length ss)%nat ->
  nth i (section_updates ss x) sos_unset =
  fst (iirfiltsos_execute (nth i ss sos_unset) (nth i (section_signals ss x) 0)).
Proof.
  induction ss as [|s t IH]; intros x i Hi; simpl in Hi; [lia|].
  destruct i as [|j]; [reflexivity|].
  change (nth (S j) (section_updates (s :: t) x) sos_unset)
    with (nth j (section_updates t (snd (iirfiltsos_execute s x))) sos_unset).
  rewrite IH by lia. reflexivity.
Qed.

Lemma sos_step_at (pre : list iirfiltsos) (s : iirfiltsos)
  (t : list iirfiltsos) (x y0 : R) :
  sos_step (length pre) (pre ++ s :: t, x, y0)
  = Ok (pre ++ fst (iirfiltsos_execute s x) :: t,
        snd (iirfiltsos_execute s x), snd (iirfiltsos_execute s x)).
Proof.
  unfold sos_step.
  rewrite (BlockFacts.rd_in _ _ sos_unset) by (rewrite length_app; simpl; lia).
  rewrite app_nth2, Nat.sub_diag by lia.
  cbv beta iota delta [bind nth].
  destruct (iirfiltsos_execute s x) as [s' y].
  rewrite BlockFacts.wr_in by (rewrite length_app; simpl; lia).
  rewrite upd_middle. reflexivity.
Qed.

Lemma sos_loop (post : list iirfiltsos) : forall (pre : list iirfiltsos) (x y0 : R),
  for_up sos_step (length pre) (length post) (pre ++ post, x, y0)
  = Ok (pre ++ section_updates post x,
        nth (length post) (section_signals post x) 0,
        match post with
        | [] => y0
        | _ => nth (length post) (section_signals post x) 0
        end).
Proof.
  induction post as [|s t IH]; intros pre x y0.
  - simpl. reflexivity.
  - change (for_up sos_step (length pre) (length (s :: t)) (pre ++ s :: t, x, y0))
      with (s' <- sos_step (length pre) (pre ++ s :: t, x, y0) ;;
            for_up sos_step (S (length pre)) (length t) s').
    rewrite sos_step_at. cbv beta iota delta [bind].
    set (s' := fst (iirfiltsos_execute s x)).
    set (y := snd (iirfiltsos_execute s x)).
    specialize (IH (pre ++ [s']) y y).
    rewrite length_app in IH. simpl in IH.
    rewrite Nat.add_1_r, <- !app_assoc in IH. simpl in IH.
    rewrite IH.
    change (section_updates (s :: t) x) with (s' :: section_updates t y).
    change (nth (length (s :: t)) (section_signals (s :: t) x) 0)
      with (nth (length t) (section_signals t y) 0).
    destruct t; reflexivity.
Qed.

Lemma execute_sos_run (_q : iirfilt) (_x : R) :
  valid_sos _q ->
  execute_sos _q _x =
  Ok (set_qsos _q (section_updates (qsos _q) _x),
      nth (length (qsos _q)) (section_signals (qsos _q) _x) 0).
Proof.
  intros Hq. pose proof (vs_qsos _ Hq) as Hlen. pose proof (vs_nsos _ Hq) as Hk.
  unfold execute_sos. rewrite <- Hlen.
  pose proof (sos_loop (qsos _q) [] _x 0) as Hloop. simpl in Hloop.
  rewrite Hloop. simpl.
  destruct (qsos _q) eqn:E; [simpl in Hlen; lia|reflexivity].
Qed.

(** C2.  On a validly constructed SOS-form filter with sections
    [s_0 .. s_{k-1}], [execute_sos] returns normally; there are signals
    [t_0 .. t_k] with [t_0 = x] and [t_{i+1}] the output of section
    [s_i] on input [t_i]; the value returned is [t_k], and every section
    is left in the state its own call put it in. *)
Theorem execute_sos_series (_q : iirfilt) (_x : R) :
  valid_sos _q ->
  exists (t : list R) (qsos' : list iirfiltsos),
    length t = S (length (qsos _q)) /\
    nth 0 t 0 = _x /\
    (forall i, (i < length (qsos _q))%nat ->
       nth (S i) t 0 =
       snd (iirfiltsos_execute (nth i (qsos _q) sos_unset) (nth i t 0))) /\
    execute_sos _q _x = Ok (set_qsos _q qsos', nth (length (qsos _q)) t 0) /\
    length qsos' = length (qsos _q) /\
    (forall i, (i < length (qsos _q))%nat ->
       nth i qsos' sos_unset =
       fst (iirfiltsos_execute (nth i (qsos _q) sos_unset) (nth i t 0))).
Proof.
  intros Hq.
  exists (section_signals (qsos _q) _x), (section_updates (qsos _q) _x).
  split; [apply section_signals_length|].
  split; [apply section_signals_head|].
  split; [intros i Hi; now apply section_signals_step|].
  split.
  - now apply execute_sos_run.
  - split; [apply section_updates_length|].
    intros i Hi. now apply section_updates_nth.
Qed.

(** ** What [execute] keeps *)

Lemma iirfiltsos_execute_coefficients (s : iirfiltsos) (x : R) :
  sos_coefficients (fst (iirfiltsos_execute s x)) = sos_coefficients s.
Proof. reflexivity. Qed.

Lemma section_updates_coefficients (ss : list iirfiltsos) : forall x : R,
  map sos_coefficients (section_updates ss x) = map sos_coefficients ss.
Proof.
  induction ss as [|s t IH]; intros x; simpl; [reflexivity|].
  now rewrite IH.
Qed.

Lemma execute_run (_q : iirfilt) (_x : R) :
  valid _q ->
  exists (q' : iirfilt) (y : R),
    execute _q _x = Ok (q', y) /\ same_design q' _q /\ valid q'.
Proof.
  intros [Hq|Hq].
  - destruct (execute_norm_run _q _x Hq) as (v' & y & Hrun & Hlen & _).
    exists (set_v _q v'), y. unfold execute. rewrite (vn_type _ Hq).
    split; [exact Hrun|]. split.
    + unfold same_design. simpl. repeat split; auto.
    + left. destruct Hq. constructor; simpl; auto. congruence.
  - exists (set_qsos _q (section_updates (qsos _q) _x)),
           (nth (length (qsos _q)) (section_signals (qsos _q) _x) 0).
    unfold execute. rewrite (vs_type _ Hq).
    split; [now apply execute_sos_run|]. split.
    + unfold same_design. simpl. repeat split; auto.
      apply section_updates_coefficients.
    + right. destruct Hq. constructor; simpl; auto.
      now rewrite section_updates_length.
Qed.

(** A sequence of samples runs through a validly constructed filter
    without a fault. *)
Lemma execute_block_run (xs : list R) : forall _q : iirfilt,
  valid _q ->
  exists (q' : iirfilt) (ys : list R),
    execute_block _q xs = Ok (q', ys) /\ length ys = length xs /\
    same_design q' _q /\ valid q'.
Proof.
  induction xs as [|x xs IH]; intros _q Hq.
  - exists _q, []. simpl. repeat split; auto.
  - destruct (execute_run _q x Hq) as (q1 & y & Hrun & Hsame & Hq1).
    destruct (IH q1 Hq1) as (q2 & ys & Hrun2 & Hlen & Hsame2 & Hq2).
    exists q2, (y :: ys). simpl. rewrite Hrun. simpl. rewrite Hrun2. simpl.
    split; [reflexivity|]. split; [now rewrite Hlen|]. split; [|exact Hq2].
    unfold same_design in *. intuition congruence.
Qed.

(** C10.  On a validly constructed filter of either form, [execute]
    returns a filter with the same arrays [b] and [a], the same [nb],
    [na], [n] and [nsos] and the same form tag; in the SOS form every
    section keeps its own coefficients as well.  Only the state buffer
    (normal form) or the sections' delay states (SOS form) may differ. *)
Theorem execute_frame (_q : iirfilt) (_x : R) :
  valid _q ->
  exists (q' : iirfilt) (y : R),
    execute _q _x = Ok (q', y) /\
    b q' = b _q /\ a q' = a _q /\
    nb q' = nb _q /\ na q' = na _q /\ n q' = n _q /\ nsos q' = nsos _q /\
    type q' = type _q /\
    map sos_coefficients (qsos q') = map sos_coefficients (qsos _q) /\
    (type _q = IIRFILT_TYPE_NORM -> qsos q' = qsos _q) /\
    (type _q = IIRFILT_TYPE_SOS -> v q' = v _q).
Proof.
  intros Hq.
  destruct (execute_run _q _x Hq) as (q' & y & Hrun & Hsame & _).
  exists q', y. split; [exact Hrun|].
  destruct Hsame as (Hb & Ha & Hn & Hnb & Hna & Ht & Hnsos & _ & Hco).
  repeat split; auto.
  - intros Hnorm. unfold execute in Hrun. rewrite Hnorm in Hrun.
    unfold execute_norm in Hrun.
    repeat (apply bind_Ok_inv in Hrun as (? & _ & Hrun)).
    now inversion Hrun.
  - intros Hsos. unfold execute in Hrun. rewrite Hsos in Hrun.
    unfold execute_sos in Hrun.
    apply bind_Ok_inv in Hrun as ([[blk t0] t1] & _ & Hrun).
    now inversion Hrun.
Qed.

(** ** What [clear] leaves *)

Lemma all_zero_repeat (l : list R) :
  Forall (fun x => x = 0) l -> l = repeat 0 (length l).
Proof.
  induction 1 as [|x l Hx _ IH]; simpl; [reflexivity|].
  now rewrite Hx, <- IH.
Qed.

Lemma repeat_all_zero (k : nat) : Forall (fun x => x = 0) (repeat 0 k).
Proof. induction k; simpl; constructor; auto. Qed.

Lemma cleared_sections (ss : list iirfiltsos) :
  Forall sos_cleared (map iirfiltsos_clear ss).
Proof.
  induction ss as [|s t IH]; simpl; constructor; auto.
  split; reflexivity.
Qed.

Lemma clear_coefficients (ss : list iirfiltsos) :
  map sos_coefficients (map iirfiltsos_clear ss) = map sos_coefficients ss.
Proof.
  induction ss as [|s t IH]; simpl; [reflexivity|]. now rewrite IH.
Qed.

(** Sections with given coefficients and an all-zero state are the
    cleared sections. *)
Lemma cleared_sections_unique (ss : list iirfiltsos) : forall ts,
  map sos_coefficients ts = map sos_coefficients ss ->
  Forall sos_cleared ts ->
  ts = map iirfiltsos_clear ss.
Proof.
  induction ss as [|s ss IH]; intros [|t ts] Hco Hz; simpl in *;
    try discriminate; [reflexivity|].
  inversion Hco as [[Hb0 Hb1 Hb2 Ha0 Ha1 Ha2 Hrest]].
  inversion Hz as [|? ? [Hv1 Hv2] Hz']; subst.
  f_equal; [|now apply IH].
  destruct t; unfold iirfiltsos_clear; simpl in *. congruence.
Qed.

Lemma clear_run (_q : iirfilt) :
  valid _q ->
  exists q' : iirfilt,
    clear _q = Ok q' /\ same_design q' _q /\ state_zero q' /\ valid q' /\
    (forall q0, valid q0 -> same_design q0 _q -> state_zero q0 -> q0 = q').
Proof.
  intros [Hq|Hq].
  - exists (set_v _q (repeat 0 (N.to_nat (n _q)))).
    split; [apply clear_norm; apply Hq|].
    split; [|split; [|split]].
    + unfold same_design. simpl. rewrite repeat_length.
      repeat split; auto. symmetry. apply Hq.
    + split; simpl; [apply repeat_all_zero|].
      rewrite (vn_qsos _ Hq). constructor.
    + left. destruct Hq. constructor; simpl; auto. apply repeat_length.
    + intros q0 Hq0 (Hb & Ha & Hn & Hnb & Hna & Ht & Hnsos & Hlen & Hco) [Hz _].
      assert (Hq0s : qsos q0 = qsos _q).
      { destruct Hq0 as [H0|H0].
        - rewrite (vn_qsos _ H0), (vn_qsos _ Hq). reflexivity.
        - rewrite (vs_type _ H0), (vn_type _ Hq) in Ht. discriminate. }
      apply all_zero_repeat in Hz. rewrite Hlen, (vn_v _ Hq) in Hz.
      destruct q0; unfold set_v; simpl in *. congruence.
  - exists (set_qsos _q (map iirfiltsos_clear (qsos _q))).
    split; [apply clear_sos; apply Hq|].
    split; [|split; [|split]].
    + unfold same_design. simpl. repeat split; auto. apply clear_coefficients.
    + split; simpl; [rewrite (vs_v _ Hq); constructor|apply cleared_sections].
    + right. destruct Hq. constructor; simpl; auto. now rewrite length_map.
    + intros q0 Hq0 (Hb & Ha & Hn & Hnb & Hna & Ht & Hnsos & Hlen & Hco) [_ Hz].
      assert (Hq0v : v q0 = v _q).
      { destruct Hq0 as [H0|H0].
        - rewrite (vn_type _ H0), (vs_type _ Hq) in Ht. discriminate.
        - rewrite (vs_v _ H0), (vs_v _ Hq). reflexivity. }
      apply (cleared_sections_unique _ _ Hco) in Hz.
      destruct q0; unfold set_qsos; simpl in *. congruence.
Qed.

(** C6.  On a validly constructed filter, [clear] returns a filter
    with the same coefficients, lengths and form whose whole state is
    zero (the buffer [v] in the normal form, [v1] and [v2] of every
    section in the SOS form).  Consequently the cleared filter and any
    validly constructed filter with the same coefficients and an
    all-zero state, as a constructor returns it, give the same outputs
    on the same input sequence, and they do give outputs. *)
Theorem clear_resets_state (_q : iirfilt) :
  valid _q ->
  exists q' : iirfilt,
    clear _q = Ok q' /\
    b q' = b _q /\ a q' = a _q /\
    nb q' = nb _q /\ na q' = na _q /\ n q' = n _q /\ nsos q' = nsos _q /\
    type q' = type _q /\
    map sos_coefficients (qsos q') = map sos_coefficients (qsos _q) /\
    length (v q') = length (v _q) /\
    Forall (fun x => x = 0) (v q') /\
    Forall sos_cleared (qsos q') /\
    (forall (q0 : iirfilt) (xs : list R),
        valid q0 -> same_design q0 _q -> state_zero q0 ->
        exists (p p0 : iirfilt) (ys : list R),
          execute_block q' xs = Ok (p, ys) /\
          execute_block q0 xs = Ok (p0, ys) /\
          length ys = length xs).
Proof.
  intros Hq.
  destruct (clear_run _q Hq) as (q' & Hrun & Hsame & [Hzv Hzs] & Hq' & Huniq).
  exists q'. split; [exact Hrun|].
  destruct Hsame as (Hb & Ha & Hn & Hnb & Hna & Ht & Hnsos & Hlen & Hco).
  repeat split; auto.
  intros q0 xs Hq0 Hsame0 Hz0.
  rewrite (Huniq q0 Hq0 Hsame0 Hz0).
  destruct (execute_block_run xs q' Hq') as (p & ys & Hblock & Hlenys & _).
  exists p, p, ys. auto.
Qed.

(** ** [create_sos] *)

Lemma sos_index_small (i k : nat) :
  (N.of_nat (3 * i + k) < UInt.modulus)%N -> sos_index i k = (3 * i + k)%nat.
Proof.
  intros H. unfold sos_index, UInt.add, UInt.mul.
  rewrite (UIntFacts.wrap_small (3 * N.of_nat i)) by (unfold UInt.in_range; lia).
  rewrite UIntFacts.wrap_small by (unfold UInt.in_range; lia).
  lia.
Qed.

Lemma iirfiltsos_create_triplet (b0 b1 b2 a0 a1 a2 : R) :
  iirfiltsos_create [b0; b1; b2] [a0; a1; a2] =
  if Req_dec_T a0 0 then Exit section_leading_zero
  else Ok {| sos_b0 := b0 / a0; sos_b1 := b1 / a0; sos_b2 := b2 / a0;
             sos_a0 := a0 / a0; sos_a1 := a1 / a0; sos_a2 := a2 / a0;
             sos_v1 := 0; sos_v2 := 0 |}.
Proof. reflexivity. Qed.

Lemma section_at_cases (_B _A : list R) (i : nat) :
  (nth (3 * i) _A 0 = 0 /\ section_at _B _A i = Exit section_leading_zero) \/
  (nth (3 * i) _A 0 <> 0 /\ exists s, section_at _B _A i = Ok s).
Proof.
  unfold section_at. rewrite iirfiltsos_create_triplet.
  destruct (Req_dec_T (nth (3 * i) _A 0) 0) as [Hz|Hnz].
  - left. split; [exact Hz|reflexivity].
  - right. split; [exact Hnz|]. eexists. reflexivity.
Qed.

(** One turn of the outer loop of [create_sos] on in-range triplets. *)
Lemma create_sos_body (q_b q_a : list R) (i : nat) (blk : list iirfiltsos) :
  (N.of_nat (3 * i + 2) < UInt.modulus)%N ->
  (3 * i + 2 < length q_b)%nat -> (3 * i + 2 < length q_a)%nat ->
  (tt <- for_up
     (fun k (t : list R * list R) =>
        x <- Block.rd q_a (sos_index i k) ;;
        at' <- Block.wr (fst t) k x ;;
        y <- Block.rd q_b (sos_index i k) ;;
        bt' <- Block.wr (snd t) k y ;;
        Ok (at', bt'))
     0 3 ([0; 0; 0], [0; 0; 0]) ;;
   s <- iirfiltsos_create (snd tt) (fst tt) ;;
   Block.wr blk i s)
  = (s <- section_at q_b q_a i ;; Block.wr blk i s).
Proof.
  intros Hr Hb Ha. unfold for_up.
  rewrite !sos_index_small by lia.
  rewrite !(BlockFacts.rd_in q_a _ 0), !(BlockFacts.rd_in q_b _ 0) by lia.
  rewrite !Nat.add_0_r. reflexivity.
Qed.

Lemma sections_loop_exit (f : nat -> result iirfiltsos) (cnt : nat) :
  forall (lo : nat) (blk : list iirfiltsos) (e : fatal),
  for_up (fun i p => s <- f i ;; Block.wr p i s) lo cnt blk = Exit e ->
  exists i, (lo <= i < lo + cnt)%nat /\ f i = Exit e.
Proof.
  induction cnt as [|k IH]; intros lo blk e H; simpl in H; [discriminate|].
  apply bind_Exit_inv in H as [H|(p & _ & H)].
  - apply bind_Exit_inv in H as [H|(s & _ & H)].
    + exists lo. split; [lia|exact H].
    + exfalso. exact (wr_no_exit _ _ _ _ H).
  - apply IH in H as (i & Hi & H). exists i. split; [lia|exact H].
Qed.

Lemma sections_loop_Ok (f : nat -> result iirfiltsos) (cnt : nat) :
  forall (lo : nat) (blk : list iirfiltsos),
  (lo + cnt <= length blk)%nat ->
  (forall i, (lo <= i < lo + cnt)%nat -> exists s, f i = Ok s) ->
  exists blk',
    for_up (fun i p => s <- f i ;; Block.wr p i s) lo cnt blk = Ok blk' /\
    length blk' = length blk /\
    (forall i, (lo <= i < lo + cnt)%nat -> f i = Ok (nth i blk' sos_unset)).
Proof.
  induction cnt as [|k IH]; intros lo blk Hlen Hf.
  - exists blk. simpl. repeat split; auto. intros i Hi. lia.
  - simpl. destruct (Hf lo) as [s Hs]; [lia|]. rewrite Hs. simpl.
    rewrite BlockFacts.wr_in by lia. simpl.
    destruct (IH (S lo) (Block.upd blk lo s)) as (blk' & Hrun & Hlen' & Hnth).
    + rewrite BlockFacts.upd_length. lia.
    + intros i Hi. apply Hf. lia.
    + exists blk'. split; [exact Hrun|].
      split; [now rewrite Hlen', BlockFacts.upd_length|].
      intros i Hi. destruct (Nat.eq_dec i lo) as [->|Hne]; [|apply Hnth; lia].
      rewrite Hs. f_equal.
      assert (Hkeep : forall c l p p',
                 for_up (fun i p => s <- f i ;; Block.wr p i s) l c p = Ok p' ->
                 forall j, (j < l)%nat -> nth j p' sos_unset = nth j p sos_unset).
      { induction c as [|c IHc]; intros l p p' Hp j Hj; simpl in Hp.
        - congruence.
        - apply bind_Ok_inv in Hp as (p1 & Hstep & Hp).
          apply bind_Ok_inv in Hstep as (s1 & _ & Hwr).
          apply BlockFacts.wr_Ok in Hwr as [_ ->].
          rewrite (IHc _ _ _ Hp) by lia.
          apply BlockFacts.upd_nth_other. lia. }
      rewrite (Hkeep _ _ _ _ Hrun lo) by lia.
      symmetry. apply BlockFacts.upd_nth_same. lia.
Qed.

Lemma sections_loop_fails (f : nat -> result iirfiltsos) (cnt : nat) :
  forall (lo : nat) (blk : list iirfiltsos) (e : fatal),
  (lo + cnt <= length blk)%nat ->
  (forall i, (lo <= i < lo + cnt)%nat -> f i = Exit e \/ exists s, f i = Ok s) ->
  (exists i, (lo <= i < lo + cnt)%nat /\ f i = Exit e) ->
  for_up (fun i p => s <- f i ;; Block.wr p i s) lo cnt blk = Exit e.
Proof.
  induction cnt as [|k IH]; intros lo blk e Hlen Hf (i & Hi & Hbad); [lia|].
  simpl. destruct (Hf lo) as [He|[s Hs]]; [lia| |].
  - rewrite He. reflexivity.
  - rewrite Hs. simpl. rewrite BlockFacts.wr_in by lia. simpl.
    apply IH.
    + rewrite BlockFacts.upd_length. lia.
    + intros j Hj. apply Hf. lia.
    + exists i. split; [|exact Hbad].
      destruct (Nat.eq_dec i lo) as [->|Hne]; [congruence|lia].
Qed.

Lemma for_up_ext {S : Type} (f g : nat -> S -> result S) (cnt : nat) :
  forall (lo : nat) (s : S),
  (forall i s', (lo <= i < lo + cnt)%nat -> f i s' = g i s') ->
  for_up f lo cnt s = for_up g lo cnt s.
Proof.
  induction cnt as [|k IH]; intros lo s H; simpl; [reflexivity|].
  rewrite H by lia. destruct (g lo s); simpl; auto.
  apply IH. intros i s' Hi. apply H. lia.
Qed.

Lemma memmove_all (src : list R) (k : N) :
  length src = N.to_nat k -> Block.memmove (Block.malloc 0 k) src k = Ok src.
Proof.
  intros H. unfold Block.memmove. rewrite BlockFacts.malloc_length, <- H.
  rewrite Nat.leb_refl. simpl.
  rewrite firstn_all. unfold Block.malloc. rewrite <- H.
  rewrite skipn_all2 by (rewrite repeat_length; lia).
  now rewrite app_nil_r.
Qed.

(** [create_sos] on arrays of [3*_nsos] elements, [3*_nsos] within the
    range of [unsigned int]: the coefficient blocks are copies of the
    arguments, and the sections are built one after the other from
    their triplets. *)
Lemma create_sos_run (_B _A : list R) (_nsos : N) :
  (1 <= _nsos)%N -> (3 * _nsos < UInt.modulus)%N ->
  length _B = N.to_nat (3 * _nsos) -> length _A = N.to_nat (3 * _nsos) ->
  create_sos _B _A _nsos =
  (q_qsos <- for_up (fun i p => s <- section_at _B _A i ;; Block.wr p i s)
               0 (N.to_nat _nsos) (Block.malloc sos_unset _nsos) ;;
   Ok {| b := _B; a := _A; v := []; n := (2 * _nsos)%N; nb := 0%N; na := 0%N;
         type := IIRFILT_TYPE_SOS; qsos := q_qsos; nsos := _nsos |}).
Proof.
  intros Hk Hr HB HA. unfold create_sos.
  destruct (N.eqb_spec _nsos 0) as [?|_]; [lia|].
  unfold UInt.mul.
  rewrite (UIntFacts.wrap_small (3 * _nsos)) by exact Hr.
  rewrite (UIntFacts.wrap_small (_nsos * 2)) by (unfold UInt.in_range; lia).
  rewrite !memmove_all by assumption.
  cbv beta iota delta [bind].
  rewrite (for_up_ext _ (fun i p => s <- section_at _B _A i ;; Block.wr p i s)).
  - replace (_nsos * 2)%N with (2 * _nsos)%N by lia. reflexivity.
  - intros i p Hi. apply create_sos_body; lia.
Qed.

Lemma create_sos_exit (_B _A : list R) (_nsos : N) :
  (3 * _nsos < UInt.modulus)%N ->
  length _B = N.to_nat (3 * _nsos) -> length _A = N.to_nat (3 * _nsos) ->
  (exists e, create_sos _B _A _nsos = Exit e) <->
  (_nsos = 0%N \/
   exists i, (i < N.to_nat _nsos)%nat /\ nth (3 * i) _A 0 = 0).
Proof.
  intros Hr HB HA.
  destruct (N.eq_dec _nsos 0) as [->|Hnz].
  { split; [now left|]. intros _. exists no_second_order_section. reflexivity. }
  rewrite create_sos_run by (assumption || lia).
  split.
  - intros [e H]. right.
    apply bind_Exit_inv in H as [H|(p & _ & H)]; [|discriminate].
    apply sections_loop_exit in H as (i & Hi & H).
    exists i. split; [lia|].
    destruct (section_at_cases _B _A i) as [[Hz _]|[_ [s Hs]]];
      [exact Hz|congruence].
  - intros [?|(i & Hi & Hz)]; [contradiction|].
    exists section_leading_zero.
    rewrite (sections_loop_fails _ _ _ _ section_leading_zero); [reflexivity| | |].
    + rewrite BlockFacts.malloc_length. lia.
    + intros j Hj. destruct (section_at_cases _B _A j) as [[_ H]|[_ H]]; auto.
    + exists i. split; [lia|].
      destruct (section_at_cases _B _A i) as [[_ H]|[Hn _]];
        [exact H|contradiction].
Qed.

Lemma create_sos_Ok (_B _A : list R) (_nsos : N) :
  (1 <= _nsos)%N -> (3 * _nsos < UInt.modulus)%N ->
  length _B = N.to_nat (3 * _nsos) -> length _A = N.to_nat (3 * _nsos) ->
  (forall i, (i < N.to_nat _nsos)%nat -> nth (3 * i) _A 0 <> 0) ->
  exists q,
    create_sos _B _A _nsos = Ok q /\
    b q = _B /\ a q = _A /\ v q = [] /\ nb q = 0%N /\ na q = 0%N /\
    type q = IIRFILT_TYPE_SOS /\ nsos q = _nsos /\ n q = (2 * _nsos)%N /\
    length (qsos q) = N.to_nat _nsos /\
    (forall i, (i < N.to_nat _nsos)%nat ->
               section_at _B _A i = Ok (nth i (qsos q) sos_unset)).
Proof.
  intros Hk Hr HB HA Hlead.
  rewrite create_sos_run by assumption.
  destruct (sections_loop_Ok (section_at _B _A) (N.to_nat _nsos) 0
              (Block.malloc sos_unset _nsos))
    as (blk & Hrun & Hlen & Hnth).
  - rewrite BlockFacts.malloc_length. lia.
  - intros i Hi. destruct (section_at_cases _B _A i) as [[Hz _]|[_ H]];
      [|exact H].
    exfalso. apply (Hlead i); [lia|exact Hz].
  - rewrite Hrun. eexists. split; [reflexivity|]. simpl.
    rewrite BlockFacts.malloc_length in Hlen.
    repeat split; auto. intros i Hi. apply Hnth. lia.
Qed.

Lemma create_sos_Ok_inv (_B _A : list R) (_nsos : N) (q : iirfilt) :
  (3 * _nsos < UInt.modulus)%N ->
  length _B = N.to_nat (3 * _nsos) -> length _A = N.to_nat (3 * _nsos) ->
  create_sos _B _A _nsos = Ok q ->
  type q = IIRFILT_TYPE_SOS /\ nsos q = _nsos /\ n q = (2 * _nsos)%N /\
  length (qsos q) = N.to_nat _nsos /\
  (forall i, (i < N.to_nat _nsos)%nat ->
             section_at _B _A i = Ok (nth i (qsos q) sos_unset)) /\
  valid_sos q /\ state_zero q.
Proof.
  intros Hr HB HA Hrun.
  destruct (N.eq_dec _nsos 0) as [->|Hnz]; [discriminate|].
  assert (Hlead : forall i, (i < N.to_nat _nsos)%nat -> nth (3 * i) _A 0 <> 0).
  { intros i Hi Hz.
    assert (Hex : exists e, create_sos _B _A _nsos = Exit e).
    { apply create_sos_exit; auto. right. now exists i. }
    destruct Hex as [e He]. congruence. }
  destruct (create_sos_Ok _B _A _nsos) as
    (q1 & Hq1 & Hb & Ha & Hv & Hnb & Hna & Ht & Hnsos & Hn & Hlen & Hsec);
    try assumption; [lia|].
  rewrite Hrun in Hq1. inversion Hq1; subst q1; clear Hq1.
  repeat split; auto.
  - rewrite Hnsos. lia.
  - unfold UInt.in_range. rewrite Hnsos. lia.
  - rewrite Hn, Hnsos. unfold UInt.mul.
    rewrite UIntFacts.wrap_small by (unfold UInt.in_range; lia). lia.
  - now rewrite Hnsos.
  - rewrite Hb, Hnsos. unfold UInt.mul. now rewrite UIntFacts.wrap_small.
  - rewrite Ha, Hnsos. unfold UInt.mul. now rewrite UIntFacts.wrap_small.
  - rewrite Hv. constructor.
  - apply Forall_forall. intros s Hin.
    apply (In_nth _ _ sos_unset) in Hin as (i & Hi & <-).
    specialize (Hsec i ltac:(lia)).
    unfold section_at in Hsec. rewrite iirfiltsos_create_triplet in Hsec.
    destruct (Req_dec_T _ 0); [discriminate|].
    inversion Hsec as [Heq]. split; reflexivity.
Qed.

(** ** [create_pll] *)

Section PhaseLockedLoop.

Variable iirdes_pll_active_lag : R -> R -> R -> (R * R * R) * (R * R * R).

Lemma create_pll_in_range (_w _zeta _K : R) :
  0 < _w < 1 -> 0 < _zeta < 1 -> 0 < _K ->
  create_pll iirdes_pll_active_lag _w _zeta _K =
  let '((bf0, bf1, bf2), (af0, af1, af2)) :=
    iirdes_pll_active_lag _w _zeta _K in
  create_sos [bf0; bf1; bf2] [af0; af1; af2] 1.
Proof.
  intros Hw Hz HK. unfold create_pll.
  destruct (Rle_dec _w 0); [lra|].
  destruct (Rge_dec _w 1); [lra|].
  destruct (Rle_dec _zeta 0); [lra|].
  destruct (Rge_dec _zeta 1); [lra|].
  destruct (Rle_dec _K 0); [lra|].
  reflexivity.
Qed.

Lemma create_pll_out_of_range (_w _zeta _K : R) :
  _w <= 0 \/ _w >= 1 \/ _zeta <= 0 \/ _zeta >= 1 \/ _K <= 0 ->
  exists e, create_pll iirdes_pll_active_lag _w _zeta _K = Exit e /\
            (e = pll_bandwidth_range \/ e = pll_damping_range \/
             e = pll_gain_range).
Proof.
  intros H. unfold create_pll.
  destruct (Rle_dec _w 0); [eauto|].
  destruct (Rge_dec _w 1); [eauto|].
  destruct (Rle_dec _zeta 0); [eauto|].
  destruct (Rge_dec _zeta 1); [eauto|].
  destruct (Rle_dec _K 0); [eauto 6|].
  exfalso. lra.
Qed.

End PhaseLockedLoop.

(** ** [groupdelay] *)

Section GroupDelay.

Variable iir_group_delay : list R -> N -> list R -> N -> R -> R.

Lemma groupdelay_loop (_fc : R) (post : list iirfiltsos) :
  forall (pre : list iirfiltsos) (acc : R),
  for_up
    (fun i gd =>
       s <- Block.rd (pre ++ post) i ;;
       Ok (gd + (iirfiltsos_groupdelay iir_group_delay s _fc - 2)))
    (length pre) (length post) acc
  = Ok (acc + (sections_groupdelay iir_group_delay post _fc
               - 2 * INR (length post))).
Proof.
  induction post as [|s t IH]; intros pre acc.
  - simpl. f_equal. unfold sections_groupdelay. simpl. lra.
  - change (length (s :: t)) with (S (length t)).
    rewrite S_INR. simpl for_up.
    rewrite (BlockFacts.rd_in _ _ sos_unset) by (rewrite length_app; simpl; lia).
    rewrite app_nth2, Nat.sub_diag by lia.
    change (nth 0 (s :: t) sos_unset) with s.
    rewrite !bind_Ok.
    specialize (IH (pre ++ [s])
                   (acc + (iirfiltsos_groupdelay iir_group_delay s _fc - 2))).
    rewrite length_app in IH. simpl in IH.
    rewrite Nat.add_1_r, <- app_assoc in IH. simpl in IH.
    rewrite IH. f_equal. unfold sections_groupdelay. simpl. lra.
Qed.

(** C5.  On a validly constructed SOS-form filter with [k] sections,
    [groupdelay] returns the sum of the sections' group delays at [_fc]
    minus [2*k]. *)
Theorem groupdelay_sos (_q : iirfilt) (_fc : R) :
  valid_sos _q ->
  groupdelay iir_group_delay _q _fc =
  Ok (sections_groupdelay iir_group_delay (qsos _q) _fc
      - 2 * INR (length (qsos _q))) /\
  INR (length (qsos _q)) = IZR (Z.of_N (nsos _q)).
Proof.
  intros Hq. split.
  - unfold groupdelay. rewrite (vs_type _ Hq), <- (vs_qsos _ Hq).
    pose proof (groupdelay_loop _fc (qsos _q) [] 0) as H. simpl in H.
    rewrite H. f_equal. lra.
  - rewrite (vs_qsos _ Hq), INR_IZR_INZ. f_equal. lia.
Qed.

End GroupDelay.

(** ** [freqresponse_sos] *)

Lemma twiddle_dc (i : nat) : twiddle 0 i = Cplx.mk 1 0.
Proof.
  unfold twiddle, Cplx.mulr, Cplx.I. simpl.
  replace (0 * 2 * PI * 0 * INR i) with 0 by ring.
  replace (1 * 2 * PI * 0 * INR i) with 0 by ring.
  apply CplxFacts.cexpf_0.
Qed.

Lemma dft3_dc (p0 p1 p2 : R) : dft3 p0 p1 p2 0 = Cplx.mk (p0 + p1 + p2) 0.
Proof.
  unfold dft3. rewrite !twiddle_dc.
  unfold Cplx.add, Cplx.rmul. simpl.
  apply CplxFacts.eq_parts; simpl; ring.
Qed.

(** The function reads the array [b] and the section count only. *)
Lemma freqresponse_sos_reads_numerator (p q : iirfilt) (_fc : R) :
  b p = b q -> nsos p = nsos q ->
  freqresponse_sos p _fc = freqresponse_sos q _fc.
Proof. intros Hb Hn. unfold freqresponse_sos. now rewrite Hb, Hn. Qed.

Lemma half_gain_created : create_sos [1; 0; 0] [2; 0; 0] 1 = Ok half_gain.
Proof.
  rewrite create_sos_run by (reflexivity || lia).
  unfold section_at. simpl for_up.
  rewrite iirfiltsos_create_triplet.
  change (nth (3 * 0) [2; 0; 0] 0) with 2.
  destruct (Req_dec_T 2 0) as [H|_]; [lra|].
  reflexivity.
Qed.

(** C4.  On the filter of one section with numerator [1, 0, 0] and
    denominator [2, 0, 0], at [_fc = 0]: the product of the sections'
    responses is [1/2], and [freqresponse_sos] returns [1], the
    numerator sum divided by itself (line 721 points [a] into [_q->b]). *)
Theorem freqresponse_sos_half_gain :
  create_sos [1; 0; 0] [2; 0; 0] 1 = Ok half_gain /\
  freqresponse half_gain 0 = freqresponse_sos half_gain 0 /\
  freqresponse_sos half_gain 0 = Ok (Cplx.mk 1 0) /\
  sections_response (b half_gain) (a half_gain) 1 0 = Cplx.mk (1 / 2) 0 /\
  Cplx.mk 1 0 <> Cplx.mk (1 / 2) 0.
Proof.
  split; [exact half_gain_created|].
  split; [reflexivity|].
  split; [|split].
  - cbv -[Rdiv Rplus Rminus Rmult Ropp Rinv IZR dft3
          Cplx.mul Cplx.div Cplx.of_real].
    rewrite dft3_dc. f_equal.
    unfold Cplx.mul, Cplx.div, Cplx.of_real. simpl.
    apply CplxFacts.eq_parts; simpl; field.
  - cbv -[Rdiv Rplus Rminus Rmult Ropp Rinv IZR dft3
          Cplx.mul Cplx.div Cplx.of_real].
    rewrite !dft3_dc.
    unfold Cplx.mul, Cplx.div, Cplx.of_real. simpl.
    apply CplxFacts.eq_parts; simpl; field.
  - intros H. inversion H. lra.
Qed.

(** The function computes, section by section, the three-term sum of
    the numerator over itself. *)
Lemma freqresponse_sos_run (_q : iirfilt) (_fc : R) :
  (3 * nsos _q < UInt.modulus)%N ->
  length (b _q) = N.to_nat (3 * nsos _q) ->
  freqresponse_sos _q _fc =
  Ok (sections_response (b _q) (b _q) (N.to_nat (nsos _q)) _fc).
Proof.
  intros Hr Hb. unfold freqresponse_sos.
  assert (Hloop : forall cnt lo, (lo + cnt <= N.to_nat (nsos _q))%nat ->
    for_up
      (fun i H =>
         let pb := N.to_nat (UInt.mul 3 (N.of_nat i)) in
         let pa := N.to_nat (UInt.mul 3 (N.of_nat i)) in
         b0 <- Block.rd (b _q) (pb + 0) ;;
         b1 <- Block.rd (b _q) (pb + 1) ;;
         b2 <- Block.rd (b _q) (pb + 2) ;;
         let Hb := dft3 b0 b1 b2 _fc in
         a0 <- Block.rd (b _q) (pa + 0) ;;
         a1 <- Block.rd (b _q) (pa + 1) ;;
         a2 <- Block.rd (b _q) (pa + 2) ;;
         let Ha := dft3 a0 a1 a2 _fc in
         Ok (Cplx.mul H (Cplx.div Hb Ha)))
      lo cnt (sections_response (b _q) (b _q) lo _fc)
    = Ok (sections_response (b _q) (b _q) (lo + cnt) _fc)).
  { induction cnt as [|k IH]; intros lo Hle.
    - simpl. now rewrite Nat.add_0_r.
    - simpl for_up. cbv zeta.
      assert (Hidx : N.to_nat (UInt.mul 3 (N.of_nat lo)) = (3 * lo)%nat).
      { unfold UInt.mul. rewrite UIntFacts.wrap_small by (unfold UInt.in_range; lia).
        lia. }
      rewrite Hidx.
      rewrite !(BlockFacts.rd_in (b _q) _ 0) by lia.
      rewrite !bind_Ok, Nat.add_0_r.
      change (Cplx.mul (sections_response (b _q) (b _q) lo _fc)
                (Cplx.div
                   (dft3 (nth (3 * lo) (b _q) 0) (nth (3 * lo + 1) (b _q) 0)
                         (nth (3 * lo + 2) (b _q) 0) _fc)
                   (dft3 (nth (3 * lo) (b _q) 0) (nth (3 * lo + 1) (b _q) 0)
                         (nth (3 * lo + 2) (b _q) 0) _fc)))
        with (sections_response (b _q) (b _q) (S lo) _fc).
      rewrite IH by lia. f_equal. f_equal. lia. }
  apply (Hloop (N.to_nat (nsos _q)) O). lia.
Qed.

(** ** Freshly constructed filters *)

Lemma same_design_sym (p q : iirfilt) : same_design p q -> same_design q p.
Proof. unfold same_design. intuition congruence. Qed.

(** What [create] returns is valid and has an all-zero state. *)
Lemma create_fresh (_b _a : list R) (k : N) (q : iirfilt) :
  (1 <= k)%N -> UInt.in_range k ->
  length _b = N.to_nat k -> length _a = N.to_nat k ->
  create _b k _a k = Ok q -> valid q /\ state_zero q.
Proof.
  intros Hk Hr Hb Ha Hq.
  rewrite create_equal_lengths in Hq by assumption.
  inversion Hq; subst q; clear Hq. split.
  - left. constructor; simpl; auto; try lia.
    + now rewrite length_map.
    + now rewrite length_map.
    + apply repeat_length.
  - split; simpl; [apply repeat_all_zero|constructor].
Qed.

(** What [create_sos] returns is valid and has an all-zero state. *)
Lemma create_sos_fresh (_B _A : list R) (_nsos : N) (q : iirfilt) :
  (3 * _nsos < UInt.modulus)%N ->
  length _B = N.to_nat (3 * _nsos) -> length _A = N.to_nat (3 * _nsos) ->
  create_sos _B _A _nsos = Ok q -> valid q /\ state_zero q.
Proof.
  intros Hr HB HA Hq.
  apply create_sos_Ok_inv in Hq as (_ & _ & _ & _ & _ & Hv & Hz); auto.
  split; [now right|exact Hz].
Qed.

(** Clearing a filter after any run of samples gives back the filter
    as it was constructed. *)
Lemma clear_after_block (q0 q1 : iirfilt) (xs ys : list R) :
  valid q0 -> state_zero q0 ->
  execute_block q0 xs = Ok (q1, ys) ->
  clear q1 = Ok q0.
Proof.
  intros Hq0 Hz Hrun.
  destruct (execute_block_run xs q0 Hq0) as (q1' & ys' & Hrun' & _ & Hsame & Hq1).
  rewrite Hrun in Hrun'. inversion Hrun'; subst q1' ys'; clear Hrun'.
  destruct (clear_run q1 Hq1) as (q' & Hclear & _ & _ & _ & Huniq).
  rewrite Hclear. f_equal. symmetry.
  apply Huniq; auto. now apply same_design_sym.
Qed.

(** The scenario [create([1,-1],2,[1,-0.9],2)] on an impulse. *)
Lemma one_pole_created : create [1; -1] 2 [1; -9 / 10] 2 = Ok one_pole.
Proof.
  rewrite create_equal_lengths by (reflexivity || lia).
  unfold one_pole. simpl.
  replace (1 / 1) with 1 by lra.
  replace (-1 / 1) with (-1) by lra.
  replace (-9 / 10 / 1) with (-9 / 10) by lra.
  reflexivity.
Qed.

Lemma one_pole_impulse :
  exists (q' : iirfilt) (ys : list R),
    execute_block one_pole [1; 0; 0] = Ok (q', ys) /\
    nth 0 ys 0 = 1 /\ nth 1 ys 0 = -1 / 10 /\ nth 2 ys 0 = -9 / 100.
Proof.
  eexists. eexists. split.
  - cbv -[Rdiv Rplus Rminus Rmult Ropp Rinv IZR]. reflexivity.
  - simpl. repeat split; lra.
Qed.

(** ** Instances of the statements *)

Lemma one_pole_valid : valid_norm one_pole.
Proof.
  constructor; simpl; try reflexivity; try lia.
Qed.

Lemma half_gain_valid : valid_sos half_gain.
Proof.
  constructor; simpl; try reflexivity; try lia.
Qed.

Lemma execute_norm_spec_witness :
  exists (v' : list R) (y : R),
    execute_norm one_pole 1 = Ok (set_v one_pole v', y) /\
    length v' = length (v one_pole) /\
    (forall i, (1 <= i < N.to_nat (n one_pole))%nat ->
               nth i v' 0 = nth (i - 1) (v one_pole) 0) /\
    nth 0 v' 0 =
      1 - sum_from (fun i => nth i (a one_pole) 0 * nth i v' 0)
                   1 (N.to_nat (na one_pole) - 1) /\
    y = sum_from (fun i => nth i (b one_pole) 0 * nth i v' 0)
                 0 (N.to_nat (nb one_pole)).
Proof. exact (execute_norm_spec one_pole 1 one_pole_valid). Defined.

Lemma execute_sos_series_witness :
  exists (t : list R) (qsos' : list iirfiltsos),
    length t = S (length (qsos half_gain)) /\
    nth 0 t 0 = 1 /\
    (forall i, (i < length (qsos half_gain))%nat ->
       nth (S i) t 0 =
       snd (iirfiltsos_execute (nth i (qsos half_gain) sos_unset) (nth i t 0))) /\
    execute_sos half_gain 1 =
      Ok (set_qsos half_gain qsos', nth (length (qsos half_gain)) t 0) /\
    length qsos' = length (qsos half_gain) /\
    (forall i, (i < length (qsos half_gain))%nat ->
       nth i qsos' sos_unset =
       fst (iirfiltsos_execute (nth i (qsos half_gain) sos_unset) (nth i t 0))).
Proof. exact (execute_sos_series half_gain 1 half_gain_valid). Defined.

Lemma groupdelay_sos_witness :
  groupdelay flat_group_delay half_gain (1 / 4) =
  Ok (sections_groupdelay flat_group_delay (qsos half_gain) (1 / 4)
      - 2 * INR (length (qsos half_gain))) /\
  INR (length (qsos half_gain)) = IZR (Z.of_N (nsos half_gain)).
Proof. exact (groupdelay_sos flat_group_delay half_gain (1 / 4) half_gain_valid). Defined.

Lemma clear_resets_state_witness :
  exists q' : iirfilt, clear one_pole = Ok q' /\ b q' = b one_pole.
Proof.
  destruct (clear_resets_state one_pole (or_introl one_pole_valid))
    as (q' & Hrun & Hb & _).
  exists q'. split; assumption.
Defined.

Lemma execute_frame_witness :
  exists (q' : iirfilt) (y : R),
    execute half_gain 1 = Ok (q', y) /\ b q' = b half_gain /\ a q' = a half_gain.
Proof.
  destruct (execute_frame half_gain 1 (or_intror half_gain_valid))
    as (q' & y & Hrun & Hb & Ha & _).
  exists q', y. repeat split; assumption.
Defined.


(** * Part III: further properties of the file *)

(** ** [create]: block sizes and normalization *)

(** X1.  With numerator and denominator arrays of [_nb >= 1] and
    [_na >= 1] elements, [create] returns a filter exactly when
    [_nb = _na]; otherwise one of its two normalization loops leaves
    its block (the blocks of [q->b] and [q->a] are allocated with each
    other's length, lines 100-101). *)
Theorem create_returns_iff_lengths_agree (_b _a : list R) (_nb _na : N) :
  (1 <= _nb)%N -> (1 <= _na)%N ->
  length _b = N.to_nat _nb -> length _a = N.to_nat _na ->
  ((exists q, create _b _nb _a _na = Ok q) <-> _nb = _na) /\
  (_nb <> _na -> create _b _nb _a _na = Fault).
Proof.
  intros Hnb Hna Hb Ha.
  assert (Hbad : _nb <> _na -> create _b _nb _a _na = Fault)
    by (intros Hne; now apply create_unequal_lengths).
  split; [|exact Hbad].
  split.
  - intros [q Hq]. destruct (N.eq_dec _nb _na) as [He|Hne]; [exact He|].
    rewrite (Hbad Hne) in Hq. discriminate.
  - intros <-. eexists. now apply create_equal_lengths.
Qed.

(** X2.  With [k >= 1] coefficients on both sides and [_a[0] <> 0],
    [create] returns the normal-form filter whose arrays are the given
    ones divided element by element by [_a[0]], so that its leading
    denominator coefficient is 1; its buffer has [k] zeros. *)
Theorem create_stores_normalized (_b _a : list R) (k : N) :
  (1 <= k)%N -> length _b = N.to_nat k -> length _a = N.to_nat k ->
  nth 0 _a 0 <> 0 ->
  exists q,
    create _b k _a k = Ok q /\
    type q = IIRFILT_TYPE_NORM /\
    b q = map (fun x => x / nth 0 _a 0) _b /\
    a q = map (fun x => x / nth 0 _a 0) _a /\
    nth 0 (a q) 0 = 1 /\
    v q = repeat 0 (N.to_nat k) /\
    get_length q = k.
Proof.
  intros Hk Hb Ha Ha0. eexists. split; [now apply create_equal_lengths|].
  simpl. repeat split.
  destruct _a as [|a0 t]; [simpl in Ha; lia|]. simpl in *. now field.
Qed.

(** ** [execute] and [clear] on validly constructed filters *)

(** X3.  On a validly constructed filter of either form, a run of
    [execute] over any sequence of samples never leaves a block and
    never exits: it returns one output per input and a filter that is
    again valid, with the coefficients, lengths and form it had. *)
Theorem execute_block_never_faults (_q : iirfilt) (xs : list R) :
  valid _q ->
  exists (q' : iirfilt) (ys : list R),
    execute_block _q xs = Ok (q', ys) /\
    length ys = length xs /\ valid q' /\ same_design q' _q.
Proof.
  intros Hq.
  destruct (execute_block_run xs _q Hq) as (q' & ys & Hrun & Hlen & Hsame & Hq').
  exists q', ys. auto.
Qed.

(** X4.  A normal-form filter as [create] returns it, run over any
    sequence of samples and then cleared, is the filter [create]
    returned: [clear] undoes everything [execute] changed. *)
Theorem create_run_clear (_b _a : list R) (k : N) (q0 : iirfilt)
  (xs : list R) :
  (1 <= k)%N -> UInt.in_range k ->
  length _b = N.to_nat k -> length _a = N.to_nat k ->
  create _b k _a k = Ok q0 ->
  exists (q1 : iirfilt) (ys : list R),
    execute_block q0 xs = Ok (q1, ys) /\
    length ys = length xs /\
    clear q1 = Ok q0.
Proof.
  intros Hk Hr Hb Ha Hq0.
  destruct (create_fresh _b _a k q0 Hk Hr Hb Ha Hq0) as [Hv Hz].
  destruct (execute_block_run xs q0 Hv) as (q1 & ys & Hrun & Hlen & _).
  exists q1, ys. split; [exact Hrun|]. split; [exact Hlen|].
  exact (clear_after_block q0 q1 xs ys Hv Hz Hrun).
Qed.

(** X5.  [clear] is idempotent on validly constructed filters:
    clearing a cleared filter returns it unchanged. *)
Theorem clear_idempotent (_q : iirfilt) :
  valid _q ->
  exists q' : iirfilt, clear _q = Ok q' /\ clear q' = Ok q'.
Proof.
  intros Hq.
  destruct (clear_run _q Hq) as (q' & Hrun & Hsame & Hz & Hq' & _).
  exists q'. split; [exact Hrun|].
  destruct (clear_run q' Hq') as (q'' & Hrun' & _ & _ & _ & Huniq).
  rewrite Hrun'. f_equal. symmetry. apply Huniq; auto.
  unfold same_design. repeat split; reflexivity.
Qed.

(** ** [freqresponse] on the second-order-sections form *)

(** X6.  On a validly constructed SOS-form filter whose coefficient
    arrays are indexable ([3*nsos] within [unsigned int]),
    [freqresponse] returns the product over the sections of the
    three-term sum of the numerator triplet divided by that same sum:
    the denominator array [_q->a] is never read (line 721). *)
Theorem freqresponse_sos_closed_form (_q : iirfilt) (_fc : R) :
  valid_sos _q -> (3 * nsos _q < UInt.modulus)%N ->
  freqresponse _q _fc =
  Ok (sections_response (b _q) (b _q) (N.to_nat (nsos _q)) _fc).
Proof.
  intros Hq Hr. unfold freqresponse. rewrite (vs_type _ Hq).
  apply freqresponse_sos_run; [exact Hr|].
  rewrite (vs_b _ Hq). unfold UInt.mul.
  now rewrite UIntFacts.wrap_small.
Qed.

(** ** [create_sos]: what is stored *)

(** X7.  A filter returned by [create_sos] on arrays of [3*_nsos]
    elements holds copies of the two arrays as they were given (they
    are not normalized, lines 160-163), has no state buffer, and is
    valid with every section's state zero. *)
Theorem create_sos_copies_arrays (_B _A : list R) (_nsos : N) (q : iirfilt) :
  (3 * _nsos < UInt.modulus)%N ->
  length _B = N.to_nat (3 * _nsos) -> length _A = N.to_nat (3 * _nsos) ->
  create_sos _B _A _nsos = Ok q ->
  b q = _B /\ a q = _A /\ v q = [] /\ valid_sos q /\
  Forall sos_cleared (qsos q).
Proof.
  intros Hr HB HA Hq.
  destruct (create_sos_Ok_inv _B _A _nsos q Hr HB HA Hq)
    as (_ & _ & _ & _ & _ & Hv & [_ Hz]).
  assert (Hnz : (1 <= _nsos)%N).
  { destruct (N.eq_dec _nsos 0) as [->|H]; [discriminate Hq|lia]. }
  assert (Hfields : b q = _B /\ a q = _A /\ v q = []).
  { rewrite create_sos_run in Hq by assumption.
    apply bind_Ok_inv in Hq as (blk & _ & Hq).
    inversion Hq; subst q. simpl. repeat split. }
  destruct Hfields as (Hb & Ha & Hv0).
  split; [exact Hb|]. split; [exact Ha|]. split; [exact Hv0|].
  split; [exact Hv|exact Hz].
Qed.

(** ** [groupdelay] on the normal form *)

Section GroupDelayNormal.

Variable iir_group_delay : list R -> N -> list R -> N -> R -> R.

Lemma copy_loop (src blk : list R) :
  length blk = length src ->
  for_up (fun i p => x <- Block.rd src i ;; Block.wr p i x)
         0 (length src) blk
  = Ok src.
Proof.
  intros Hlen.
  destruct (for_up_fill
              (fun i p => x <- Block.rd src i ;; Block.wr p i x)
              (fun i => nth i src 0) (length src) (length src) 0 blk)
    as (blk' & Hrun & Hlen' & Hnew & _).
  - intros i p Hi Hp. rewrite (BlockFacts.rd_in src i 0) by lia.
    rewrite bind_Ok. apply BlockFacts.wr_in. lia.
  - lia.
  - exact Hlen.
  - rewrite Hrun. f_equal.
    apply (nth_ext _ _ 0 0); [exact Hlen'|].
    intros i Hi. apply Hnew. lia.
Qed.

(** X8.  On a validly constructed normal-form filter, [groupdelay]
    copies the [nb] numerator and [na] denominator coefficients without
    leaving a block and returns what [iir_group_delay] gives on exactly
    the stored arrays and lengths. *)
Theorem groupdelay_norm_passes_coefficients (_q : iirfilt) (_fc : R) :
  valid_norm _q ->
  groupdelay iir_group_delay _q _fc =
  Ok (iir_group_delay (b _q) (nb _q) (a _q) (na _q) _fc).
Proof.
  intros Hq. unfold groupdelay. rewrite (vn_type _ Hq).
  rewrite <- (vn_b _ Hq) at 1.
  rewrite copy_loop by (rewrite BlockFacts.malloc_length; symmetry; apply Hq).
  rewrite bind_Ok.
  rewrite <- (vn_a _ Hq) at 1.
  rewrite copy_loop by (rewrite BlockFacts.malloc_length; symmetry; apply Hq).
  reflexivity.
Qed.

End GroupDelayNormal.

(** ** The normal form as a recurrence *)

Lemma nth_removelast (l : list R) : forall i d,
  (S i < length l)%nat -> nth i (removelast l) d = nth i l d.
Proof.
  induction l as [|h t IH]; intros i d Hi; simpl in Hi; [lia|].
  destruct t as [|h' t']; [simpl in Hi; lia|].
  change (removelast (h :: h' :: t')) with (h :: removelast (h' :: t')).
  destruct i as [|j]; [reflexivity|].
  simpl nth. apply IH. simpl in *. lia.
Qed.

Lemma removelast_length (l : list R) :
  length (removelast l) = (length l - 1)%nat.
Proof.
  induction l as [|h t IH]; [reflexivity|].
  destruct t as [|h' t']; [reflexivity|].
  change (removelast (h :: h' :: t')) with (h :: removelast (h' :: t')).
  simpl length in *. rewrite IH. lia.
Qed.

Lemma set_v_valid (_q : iirfilt) (v_ : list R) :
  valid_norm _q -> length v_ = N.to_nat (n _q) -> valid_norm (set_v _q v_).
Proof. intros Hq Hv. destruct Hq. constructor; simpl; auto. Qed.

Lemma set_v_set_v (_q : iirfilt) (v1 v2 : list R) :
  set_v (set_v _q v1) v2 = set_v _q v2.
Proof. reflexivity. Qed.

Lemma execute_norm_closed (_q : iirfilt) (v_ : list R) (_x : R) :
  valid_norm _q -> length v_ = N.to_nat (n _q) ->
  execute_norm (set_v _q v_) _x =
  Ok (set_v _q (norm_next _q v_ _x), norm_out _q v_ _x).
Proof.
  intros Hq Hv.
  pose proof (set_v_valid _q v_ Hq Hv) as Hq'.
  destruct (execute_norm_run (set_v _q v_) _x Hq')
    as (v' & y & Hrun & Hlen & Hshift & Hv0 & Hy).
  simpl in Hlen, Hshift, Hv0, Hy. rewrite set_v_set_v in Hrun.
  assert (Hn : (1 <= N.to_nat (n _q))%nat).
  { pose proof (vn_nb _ Hq). pose proof (vn_n _ Hq). lia. }
  assert (Hna : (N.to_nat (na _q) <= N.to_nat (n _q))%nat).
  { pose proof (vn_n _ Hq). lia. }
  assert (Heq : v' = norm_next _q v_ _x).
  { unfold norm_next, direct_form_state.
    apply (nth_ext _ _ 0 0).
    - simpl. rewrite removelast_length. lia.
    - intros i Hi. destruct i as [|j].
      + simpl. rewrite Hv0. f_equal. apply sum_from_ext.
        intros i Hi'. f_equal. apply Hshift. lia.
      + simpl. rewrite Hshift by lia.
        rewrite nth_removelast by lia.
        f_equal. lia. }
  rewrite Hrun. unfold norm_out, direct_form_output.
  rewrite <- Heq, <- Hy. reflexivity.
Qed.

(** X9.  On a validly constructed normal-form filter, one call of
    [execute_norm] puts [x - sum_{i=1}^{na-1} a[i]*v[i-1]] in front of
    the old buffer without its last element, and returns the sum of
    [b[i]] times the elements of that new buffer: the direct-form
    recurrence on the state before the call. *)
Theorem execute_norm_recurrence (_q : iirfilt) (_x : R) :
  valid_norm _q ->
  execute_norm _q _x =
  Ok (set_v _q
        (direct_form_state (a _q) (N.to_nat (na _q)) (v _q) _x
           :: removelast (v _q)),
      direct_form_output (b _q) (N.to_nat (nb _q))
        (direct_form_state (a _q) (N.to_nat (na _q)) (v _q) _x
           :: removelast (v _q))).
Proof.
  intros Hq.
  pose proof (execute_norm_closed _q (v _q) _x Hq (vn_v _ Hq)) as H.
  replace (set_v _q (v _q)) with _q in H by (destruct _q; reflexivity).
  exact H.
Qed.

Lemma norm_next_length (_q : iirfilt) (v_ : list R) (x : R) :
  (1 <= length v_)%nat -> length (norm_next _q v_ x) = length v_.
Proof.
  intros H. unfold norm_next. simpl. rewrite removelast_length. lia.
Qed.

Lemma valid_norm_n_pos (_q : iirfilt) :
  valid_norm _q -> (1 <= N.to_nat (n _q))%nat.
Proof. intros Hq. pose proof (vn_nb _ Hq). pose proof (vn_n _ Hq). lia. Qed.

Lemma norm_run_length (_q : iirfilt) (xs : list R) : forall v_,
  (1 <= length v_)%nat ->
  length (fst (norm_run _q v_ xs)) = length v_ /\
  length (snd (norm_run _q v_ xs)) = length xs.
Proof.
  induction xs as [|x t IH]; intros v_ Hv; simpl; [auto|].
  destruct (IH (norm_next _q v_ x)) as [H1 H2].
  - rewrite norm_next_length; lia.
  - rewrite H1, H2, norm_next_length by lia. auto.
Qed.

Lemma execute_block_closed (_q : iirfilt) (xs : list R) : forall v_,
  valid_norm _q -> length v_ = N.to_nat (n _q) ->
  execute_block (set_v _q v_) xs =
  Ok (set_v _q (fst (norm_run _q v_ xs)), snd (norm_run _q v_ xs)).
Proof.
  induction xs as [|x t IH]; intros v_ Hq Hv; [reflexivity|].
  pose proof (valid_norm_n_pos _q Hq) as Hn.
  change (execute_block (set_v _q v_) (x :: t))
    with (r <- execute (set_v _q v_) x ;;
          r' <- execute_block (fst r) t ;;
          Ok (fst r', snd r :: snd r')).
  unfold execute. change (type (set_v _q v_)) with (type _q).
  rewrite (vn_type _ Hq), execute_norm_closed, bind_Ok by assumption.
  change (fst (set_v _q (norm_next _q v_ x), norm_out _q v_ x))
    with (set_v _q (norm_next _q v_ x)).
  rewrite IH by (try assumption; rewrite norm_next_length; lia).
  reflexivity.
Qed.

(** *** Superposition *)

Lemma vadd_length (p q : list R) :
  length p = length q -> length (vadd p q) = length p.
Proof.
  revert q. induction p as [|x p IH]; intros [|y q] H; simpl in *;
    try discriminate; auto.
Qed.

Lemma vadd_nth (p : list R) : forall (q : list R) (i : nat),
  length p = length q -> nth i (vadd p q) 0 = nth i p 0 + nth i q 0.
Proof.
  induction p as [|x p IH]; intros [|y q] i H; simpl in *; try discriminate.
  - destruct i; lra.
  - destruct i as [|j]; [reflexivity|]. apply IH. lia.
Qed.

Lemma vadd_removelast (p : list R) : forall q : list R,
  length p = length q ->
  removelast (vadd p q) = vadd (removelast p) (removelast q).
Proof.
  induction p as [|x p IH]; intros [|y q] H; simpl in H; try discriminate;
    [reflexivity|].
  destruct p as [|x' p'], q as [|y' q']; simpl in H; try discriminate;
    [reflexivity|].
  change (vadd (x :: x' :: p') (y :: y' :: q'))
    with ((x + y) :: vadd (x' :: p') (y' :: q')).
  change (removelast (x :: x' :: p')) with (x :: removelast (x' :: p')).
  change (removelast (y :: y' :: q')) with (y :: removelast (y' :: q')).
  change (vadd (x' :: p') (y' :: q')) with ((x' + y') :: vadd p' q') at 1.
  change (removelast ((x + y) :: (x' + y') :: vadd p' q'))
    with ((x + y) :: removelast ((x' + y') :: vadd p' q')).
  change ((x' + y') :: vadd p' q') with (vadd (x' :: p') (y' :: q')).
  rewrite IH by (simpl; lia). reflexivity.
Qed.

Lemma sum_from_plus (f g : nat -> R) (cnt : nat) : forall lo,
  sum_from (fun i => f i + g i) lo cnt = sum_from f lo cnt + sum_from g lo cnt.
Proof.
  induction cnt as [|k IH]; intros lo; simpl; [lra|]. rewrite IH. lra.
Qed.

Lemma sum_from_scale (c : R) (f : nat -> R) (cnt : nat) : forall lo,
  sum_from (fun i => c * f i) lo cnt = c * sum_from f lo cnt.
Proof.
  induction cnt as [|k IH]; intros lo; simpl; [lra|]. rewrite IH. lra.
Qed.

Lemma direct_form_state_add (a_ : list R) (na_ : nat) (v1 v2 : list R)
  (x1 x2 : R) :
  length v1 = length v2 ->
  direct_form_state a_ na_ (vadd v1 v2) (x1 + x2) =
  direct_form_state a_ na_ v1 x1 + direct_form_state a_ na_ v2 x2.
Proof.
  intros H. unfold direct_form_state.
  rewrite (sum_from_ext _ (fun i => nth i a_ 0 * nth (i - 1) v1 0
                                    + nth i a_ 0 * nth (i - 1) v2 0)).
  - rewrite sum_from_plus. lra.
  - intros i _. rewrite vadd_nth by exact H. lra.
Qed.

Lemma direct_form_output_add (b_ : list R) (nb_ : nat) (v1 v2 : list R) :
  length v1 = length v2 ->
  direct_form_output b_ nb_ (vadd v1 v2) =
  direct_form_output b_ nb_ v1 + direct_form_output b_ nb_ v2.
Proof.
  intros H. unfold direct_form_output.
  rewrite (sum_from_ext _ (fun i => nth i b_ 0 * nth i v1 0
                                    + nth i b_ 0 * nth i v2 0)).
  - apply sum_from_plus.
  - intros i _. rewrite vadd_nth by exact H. lra.
Qed.

Lemma norm_next_add (_q : iirfilt) (v1 v2 : list R) (x1 x2 : R) :
  length v1 = length v2 ->
  norm_next _q (vadd v1 v2) (x1 + x2) =
  vadd (norm_next _q v1 x1) (norm_next _q v2 x2).
Proof.
  intros H. unfold norm_next.
  rewrite direct_form_state_add, vadd_removelast by exact H. reflexivity.
Qed.

Lemma norm_run_add (_q : iirfilt) (xs1 : list R) : forall xs2 v1 v2,
  length xs1 = length xs2 -> length v1 = length v2 ->
  (1 <= length v1)%nat ->
  norm_run _q (vadd v1 v2) (vadd xs1 xs2) =
  (vadd (fst (norm_run _q v1 xs1)) (fst (norm_run _q v2 xs2)),
   vadd (snd (norm_run _q v1 xs1)) (snd (norm_run _q v2 xs2))).
Proof.
  induction xs1 as [|x1 t1 IH]; intros [|x2 t2] v1 v2 Hx Hv Hpos;
    simpl in Hx; try discriminate; [reflexivity|].
  simpl. rewrite norm_next_add by exact Hv.
  rewrite IH.
  - simpl. f_equal. f_equal. unfold norm_out.
    rewrite norm_next_add by exact Hv.
    apply direct_form_output_add.
    rewrite !norm_next_length; lia.
  - lia.
  - rewrite !norm_next_length; lia.
  - rewrite norm_next_length; lia.
Qed.

(** X10.  Superposition on the normal form: for two buffers and two
    input sequences of equal lengths, running the filter from the sum
    of the buffers on the sum of the inputs gives, sample by sample,
    the sum of the two separate outputs, and ends in the sum of the
    two final buffers. *)
Theorem execute_block_additive (_q : iirfilt) (v1 v2 xs1 xs2 : list R) :
  valid_norm _q ->
  length v1 = N.to_nat (n _q) -> length v2 = N.to_nat (n _q) ->
  length xs1 = length xs2 ->
  exists (w1 w2 ys1 ys2 : list R),
    execute_block (set_v _q v1) xs1 = Ok (set_v _q w1, ys1) /\
    execute_block (set_v _q v2) xs2 = Ok (set_v _q w2, ys2) /\
    execute_block (set_v _q (vadd v1 v2)) (vadd xs1 xs2) =
      Ok (set_v _q (vadd w1 w2), vadd ys1 ys2).
Proof.
  intros Hq H1 H2 Hx.
  pose proof (valid_norm_n_pos _q Hq) as Hn.
  exists (fst (norm_run _q v1 xs1)), (fst (norm_run _q v2 xs2)),
         (snd (norm_run _q v1 xs1)), (snd (norm_run _q v2 xs2)).
  rewrite !execute_block_closed
    by (try assumption; rewrite vadd_length; lia).
  rewrite norm_run_add by lia.
  repeat split.
Qed.

(** *** Scaling *)

Lemma vscale_nth (c : R) (p : list R) : forall i,
  nth i (vscale c p) 0 = c * nth i p 0.
Proof.
  induction p as [|x p IH]; intros [|j]; simpl; try lra. apply IH.
Qed.

Lemma vscale_length (c : R) (p : list R) : length (vscale c p) = length p.
Proof. apply length_map. Qed.

Lemma vscale_removelast (c : R) (p : list R) :
  removelast (vscale c p) = vscale c (removelast p).
Proof.
  induction p as [|x p IH]; [reflexivity|].
  destruct p as [|x' p']; [reflexivity|].
  change (vscale c (x :: x' :: p')) with (c * x :: vscale c (x' :: p')).
  change (removelast (x :: x' :: p')) with (x :: removelast (x' :: p')).
  change (vscale c (x' :: p')) with (c * x' :: vscale c p') at 1.
  change (removelast (c * x :: c * x' :: vscale c p'))
    with (c * x :: removelast (c * x' :: vscale c p')).
  change (c * x' :: vscale c p') with (vscale c (x' :: p')).
  rewrite IH. reflexivity.
Qed.

Lemma norm_next_scale (_q : iirfilt) (c : R) (v_ : list R) (x : R) :
  norm_next _q (vscale c v_) (c * x) = vscale c (norm_next _q v_ x).
Proof.
  unfold norm_next, direct_form_state. rewrite vscale_removelast.
  simpl. f_equal.
  rewrite (sum_from_ext _ (fun i => c * (nth i (a _q) 0 * nth (i - 1) v_ 0))).
  - rewrite sum_from_scale. lra.
  - intros i _. rewrite vscale_nth. lra.
Qed.

Lemma direct_form_output_scale (b_ : list R) (nb_ : nat) (c : R)
  (v_ : list R) :
  direct_form_output b_ nb_ (vscale c v_) = c * direct_form_output b_ nb_ v_.
Proof.
  unfold direct_form_output.
  rewrite (sum_from_ext _ (fun i => c * (nth i b_ 0 * nth i v_ 0))).
  - apply sum_from_scale.
  - intros i _. rewrite vscale_nth. lra.
Qed.

Lemma norm_run_scale (_q : iirfilt) (c : R) (xs : list R) : forall v_,
  norm_run _q (vscale c v_) (vscale c xs) =
  (vscale c (fst (norm_run _q v_ xs)), vscale c (snd (norm_run _q v_ xs))).
Proof.
  induction xs as [|x t IH]; intros v_; [reflexivity|].
  simpl. rewrite norm_next_scale, IH. simpl. f_equal. f_equal.
  unfold norm_out. rewrite norm_next_scale.
  apply direct_form_output_scale.
Qed.

(** X11.  Homogeneity on the normal form: scaling the buffer and every
    input sample by [c] scales every output sample and the final
    buffer by [c]. *)
Theorem execute_block_homogeneous (_q : iirfilt) (c : R) (v_ xs : list R) :
  valid_norm _q -> length v_ = N.to_nat (n _q) ->
  exists (w ys : list R),
    execute_block (set_v _q v_) xs = Ok (set_v _q w, ys) /\
    execute_block (set_v _q (vscale c v_)) (vscale c xs) =
      Ok (set_v _q (vscale c w), vscale c ys).
Proof.
  intros Hq Hv.
  exists (fst (norm_run _q v_ xs)), (snd (norm_run _q v_ xs)).
  rewrite !execute_block_closed
    by (try assumption; rewrite vscale_length; assumption).
  rewrite norm_run_scale. split; reflexivity.
Qed.

(** *** No feedback: the finite impulse response *)

Lemma nth_app_removelast (x : R) (v_ : list R) (P : list R) : forall i,
  (i < length P + length v_)%nat ->
  nth i (P ++ x :: removelast v_) 0 = nth i (P ++ x :: v_) 0.
Proof.
  induction P as [|p P IH]; intros i Hi; simpl in *.
  - destruct i as [|j]; [reflexivity|]. apply nth_removelast. lia.
  - destruct i as [|j]; [reflexivity|]. apply IH. lia.
Qed.

Lemma fir_next (_q : iirfilt) (v_ : list R) (x : R) :
  na _q = 1%N -> norm_next _q v_ x = x :: removelast v_.
Proof.
  intros Hna. unfold norm_next, direct_form_state. rewrite Hna.
  change (N.to_nat 1 - 1)%nat with O.
  unfold sum_from. f_equal. apply Rminus_0_r.
Qed.

Lemma fir_outputs (_q : iirfilt) (xs : list R) : forall (v_ : list R) (k : nat),
  na _q = 1%N -> (N.to_nat (nb _q) <= length v_)%nat ->
  (k < length xs)%nat ->
  nth k (snd (norm_run _q v_ xs)) 0 =
  direct_form_output (b _q) (N.to_nat (nb _q)) (rev (firstn (S k) xs) ++ v_).
Proof.
  induction xs as [|x t IH]; intros v_ k Hna Hnb Hk; simpl in Hk; [lia|].
  assert (Hlen : (length v_ <= length (x :: removelast v_))%nat).
  { simpl. rewrite removelast_length. lia. }
  destruct k as [|k'].
  - simpl. unfold norm_out. rewrite fir_next by exact Hna.
    unfold direct_form_output. apply sum_from_ext. intros i Hi.
    f_equal. apply (nth_app_removelast x v_ []). simpl. lia.
  - change (nth (S k') (snd (norm_run _q v_ (x :: t))) 0)
      with (nth k' (snd (norm_run _q (norm_next _q v_ x) t)) 0).
    rewrite fir_next by exact Hna.
    rewrite IH by (try assumption; lia).
    change (firstn (S (S k')) (x :: t)) with (x :: firstn (S k') t).
    simpl rev. rewrite <- app_assoc. simpl app.
    unfold direct_form_output. apply sum_from_ext. intros i Hi.
    f_equal. apply nth_app_removelast. lia.
Qed.

Lemma delay_line_nth (xs : list R) (k i m : nat) :
  (k < length xs)%nat ->
  nth i (rev (firstn (S k) xs) ++ repeat 0 m) 0 =
  if (i <=? k)%nat then nth (k - i) xs 0 else 0.
Proof.
  intros Hk.
  assert (Hlen : length (firstn (S k) xs) = S k)
    by (rewrite length_firstn; lia).
  destruct (Nat.leb_spec i k) as [Hle|Hgt].
  - rewrite app_nth1 by (rewrite length_rev; lia).
    rewrite rev_nth by lia. rewrite Hlen.
    replace (S k - S i)%nat with (k - i)%nat by lia.
    rewrite nth_firstn.
    destruct (Nat.ltb_spec (k - i) (S k)); [reflexivity|lia].
  - rewrite app_nth2 by (rewrite length_rev; lia).
    destruct (Nat.lt_ge_cases (i - length (rev (firstn (S k) xs))) m).
    + apply nth_repeat.
    + apply nth_overflow. rewrite repeat_length. lia.
Qed.

(** X12.  A normal-form filter with a single denominator coefficient
    ([na = 1], no feedback term in the loop of lines 576-577), started
    from an all-zero buffer, is a finite-impulse-response filter: its
    [k]-th output is [sum_{i<nb, i<=k} b[i] * x[k-i]]. *)
Theorem execute_block_fir (_q : iirfilt) (xs : list R) :
  valid_norm _q -> na _q = 1%N -> Forall (fun x => x = 0) (v _q) ->
  exists (q' : iirfilt) (ys : list R),
    execute_block _q xs = Ok (q', ys) /\
    length ys = length xs /\
    forall k, (k < length xs)%nat ->
      nth k ys 0 =
      sum_from
        (fun i => nth i (b _q) 0 *
                  (if (i <=? k)%nat then nth (k - i) xs 0 else 0))
        0 (N.to_nat (nb _q)).
Proof.
  intros Hq Hna Hz.
  pose proof (valid_norm_n_pos _q Hq) as Hn.
  pose proof (vn_v _ Hq) as Hv.
  apply all_zero_repeat in Hz.
  pose proof (execute_block_closed _q xs (v _q) Hq Hv) as Hrun.
  replace (set_v _q (v _q)) with _q in Hrun at 1
    by (destruct _q; reflexivity).
  eexists. eexists. split; [exact Hrun|].
  split; [apply norm_run_length; lia|].
  intros k Hk.
  rewrite fir_outputs; try assumption.
  - unfold direct_form_output. apply sum_from_ext. intros i _.
    f_equal. rewrite Hz. now apply delay_line_nth.
  - rewrite Hv. pose proof (vn_n _ Hq). lia.
Qed.

(** ** [freqresponse] on the normal form *)

Lemma dft_loop (c : list R) (_fc : R) (cnt : nat) : forall lo,
  (lo + cnt <= length c)%nat ->
  for_up
    (fun i H =>
       ci <- Block.rd c i ;;
       Ok (Cplx.add H (Cplx.rmul ci (twiddle _fc i))))
    lo cnt (dft_sum c _fc lo)
  = Ok (dft_sum c _fc (lo + cnt)).
Proof.
  induction cnt as [|k IH]; intros lo Hle.
  - simpl. now rewrite Nat.add_0_r.
  - simpl for_up. rewrite (BlockFacts.rd_in c lo 0) by lia.
    rewrite !bind_Ok.
    change (Cplx.add (dft_sum c _fc lo)
              (Cplx.rmul (nth lo c 0) (twiddle _fc lo)))
      with (dft_sum c _fc (S lo)).
    rewrite IH by lia. f_equal. f_equal. lia.
Qed.

Lemma freqresponse_tf_run (_q : iirfilt) (_fc : R) :
  valid_norm _q ->
  freqresponse_tf _q _fc =
  Ok (Cplx.div (dft_sum (b _q) _fc (N.to_nat (nb _q)))
               (dft_sum (a _q) _fc (N.to_nat (na _q)))).
Proof.
  intros Hq. unfold freqresponse_tf.
  pose proof (dft_loop (b _q) _fc (N.to_nat (nb _q)) 0) as Hb.
  pose proof (dft_loop (a _q) _fc (N.to_nat (na _q)) 0) as Ha.
  simpl in Hb, Ha.
  rewrite Hb by (rewrite (vn_b _ Hq); lia). rewrite bind_Ok.
  rewrite Ha by (rewrite (vn_a _ Hq); lia). reflexivity.
Qed.

(** X13.  On a validly constructed normal-form filter, [freqresponse]
    returns [Hb/Ha] with [Hb = sum_{i<nb} b[i]*cexpf(j*2*pi*fc*i)] and
    [Ha] the same sum over the [na] denominator coefficients, without
    leaving a block. *)
Theorem freqresponse_tf_closed_form (_q : iirfilt) (_fc : R) :
  valid_norm _q ->
  freqresponse _q _fc =
  Ok (Cplx.div (dft_sum (b _q) _fc (N.to_nat (nb _q)))
               (dft_sum (a _q) _fc (N.to_nat (na _q)))).
Proof.
  intros Hq. unfold freqresponse. rewrite (vn_type _ Hq).
  now apply freqresponse_tf_run.
Qed.

Lemma sum_from_snoc (f : nat -> R) (cnt : nat) : forall lo,
  sum_from f lo (S cnt) = sum_from f lo cnt + f (lo + cnt)%nat.
Proof.
  induction cnt as [|k IH]; intros lo.
  - simpl. rewrite Nat.add_0_r. lra.
  - change (sum_from f lo (S (S k))) with (f lo + sum_from f (S lo) (S k)).
    rewrite IH. simpl. replace (S (lo + k)) with (lo + S k)%nat by lia. lra.
Qed.

Lemma dft_sum_dc (c : list R) (k : nat) :
  dft_sum c 0 k = Cplx.mk (sum_from (fun i => nth i c 0) 0 k) 0.
Proof.
  induction k as [|k IH]; [reflexivity|].
  rewrite sum_from_snoc. simpl dft_sum. rewrite IH, twiddle_dc.
  unfold Cplx.add, Cplx.rmul. simpl.
  apply CplxFacts.eq_parts; simpl; ring.
Qed.

Lemma sum_from_map_div (l : list R) (d : R) (k : nat) :
  (k <= length l)%nat ->
  sum_from (fun i => nth i (map (fun x => x / d) l) 0) 0 k =
  sum_from (fun i => nth i l 0) 0 k / d.
Proof.
  intros Hk.
  rewrite (sum_from_ext _ (fun i => / d * nth i l 0)).
  - rewrite sum_from_scale. unfold Rdiv. ring.
  - intros i Hi.
    rewrite (nth_indep _ 0 (0 / d)) by (rewrite length_map; lia).
    rewrite (map_nth (fun x => x / d)). unfold Rdiv. ring.
Qed.

(** The response at [fc = 0] of the filter [create] returns, on the
    coefficients as they were given. *)
Lemma created_dc_response (_b _a : list R) (k : N) :
  (1 <= k)%N -> UInt.in_range k ->
  length _b = N.to_nat k -> length _a = N.to_nat k ->
  nth 0 _a 0 <> 0 ->
  sum_from (fun i => nth i _a 0) 0 (N.to_nat k) <> 0 ->
  exists q,
    create _b k _a k = Ok q /\
    freqresponse q 0 =
    Ok (Cplx.mk (sum_from (fun i => nth i _b 0) 0 (N.to_nat k)
                 / sum_from (fun i => nth i _a 0) 0 (N.to_nat k)) 0).
Proof.
  intros Hk Hr Hb Ha Ha0 Hsum.
  eexists. split; [now apply create_equal_lengths|].
  unfold freqresponse. simpl type.
  rewrite freqresponse_tf_run.
  - simpl b. simpl a. simpl nb. simpl na.
    rewrite !dft_sum_dc, !sum_from_map_div by lia.
    f_equal. unfold Cplx.div. simpl.
    apply CplxFacts.eq_parts; simpl; field; auto.
  - constructor; simpl; auto; try lia.
    + now rewrite length_map.
    + now rewrite length_map.
    + apply repeat_length.
Qed.

(** X14.  The response at [fc = 0] of the filter [create] returns
    for [k] numerator and [k] denominator coefficients is the sum of
    the given numerator coefficients over the sum of the given
    denominator coefficients: the normalization by [_a[0]] cancels. *)
Theorem create_dc_gain (_b _a : list R) (k : N) :
  (1 <= k)%N -> UInt.in_range k ->
  length _b = N.to_nat k -> length _a = N.to_nat k ->
  nth 0 _a 0 <> 0 ->
  sum_from (fun i => nth i _a 0) 0 (N.to_nat k) <> 0 ->
  exists q,
    create _b k _a k = Ok q /\
    freqresponse q 0 =
    Ok (Cplx.mk (sum_from (fun i => nth i _b 0) 0 (N.to_nat k)
                 / sum_from (fun i => nth i _a 0) 0 (N.to_nat k)) 0).
Proof. apply created_dc_response. Qed.

(** ** The DC-blocking filter *)

Lemma dc_blocker_created (_alpha : R) :
  create_dc_blocker _alpha = Ok (dc_blocker _alpha).
Proof.
  unfold create_dc_blocker.
  rewrite create_equal_lengths by (reflexivity || lia).
  unfold dc_blocker. simpl.
  replace (1 / 1) with 1 by lra.
  replace (-1 / 1) with (-1) by lra.
  replace ((-1 + _alpha) / 1) with (_alpha - 1) by lra.
  reflexivity.
Qed.

Lemma dc_blocker_valid (_alpha : R) : valid_norm (dc_blocker _alpha).
Proof. constructor; simpl; try reflexivity; lia. Qed.

(** X15.  For [alpha <> 0] the DC-blocking filter has a zero of its
    response at [fc = 0]: [freqresponse] returns [0] there. *)
Theorem dc_blocker_rejects_dc (_alpha : R) :
  _alpha <> 0 ->
  exists q,
    create_dc_blocker _alpha = Ok q /\
    freqresponse q 0 = Ok (Cplx.mk 0 0).
Proof.
  intros Hnz. exists (dc_blocker _alpha).
  split; [apply dc_blocker_created|].
  unfold freqresponse. simpl type.
  rewrite freqresponse_tf_run by apply dc_blocker_valid.
  rewrite !dft_sum_dc. f_equal.
  unfold Cplx.div. simpl.
  apply CplxFacts.eq_parts; simpl; field; lra.
Qed.

Lemma dc_blocker_next (_alpha p r c : R) :
  norm_next (dc_blocker _alpha) [p; r] c = [c + (1 - _alpha) * p; p].
Proof.
  unfold norm_next, direct_form_state. simpl. f_equal. ring.
Qed.

Lemma dc_blocker_out (_alpha p r c : R) :
  norm_out (dc_blocker _alpha) [p; r] c = c - _alpha * p.
Proof.
  unfold norm_out. rewrite dc_blocker_next.
  unfold direct_form_output. simpl. ring.
Qed.

Lemma dc_blocker_run (_alpha c : R) (m : nat) : forall (p r : R) (k : nat),
  (k < m)%nat ->
  nth k (snd (norm_run (dc_blocker _alpha) [p; r] (repeat c m))) 0 =
  (c - _alpha * p) * (1 - _alpha) ^ k.
Proof.
  induction m as [|m IH]; intros p r k Hk; [lia|].
  change (repeat c (S m)) with (c :: repeat c m).
  destruct k as [|k'].
  - simpl. rewrite dc_blocker_out. ring.
  - change (nth (S k')
              (snd (norm_run (dc_blocker _alpha) [p; r] (c :: repeat c m))) 0)
      with (nth k'
              (snd (norm_run (dc_blocker _alpha)
                      (norm_next (dc_blocker _alpha) [p; r] c)
                      (repeat c m))) 0).
    rewrite dc_blocker_next, IH by lia. simpl. ring.
Qed.

(** X16.  The DC-blocking filter, fed the constant [c] from its
    initial state, gives the geometric sequence [c*(1-alpha)^k]: a
    constant input dies out at the rate [1-alpha] per sample. *)
Theorem dc_blocker_constant_input (_alpha c : R) (m : nat) :
  exists (q q' : iirfilt) (ys : list R),
    create_dc_blocker _alpha = Ok q /\
    execute_block q (repeat c m) = Ok (q', ys) /\
    length ys = m /\
    forall k, (k < m)%nat -> nth k ys 0 = c * (1 - _alpha) ^ k.
Proof.
  pose proof (execute_block_closed (dc_blocker _alpha) (repeat c m) [0; 0]
                (dc_blocker_valid _alpha) eq_refl) as Hrun.
  change (set_v (dc_blocker _alpha) [0; 0]) with (dc_blocker _alpha)
    in Hrun at 1.
  eexists. eexists. eexists.
  split; [apply dc_blocker_created|].
  split; [exact Hrun|].
  split.
  - destruct (norm_run_length (dc_blocker _alpha) (repeat c m) [0; 0])
      as [_ H]; [simpl; lia|].
    rewrite H. apply repeat_length.
  - intros k Hk. rewrite dc_blocker_run by exact Hk. ring.
Qed.

(** ** The constructors that call the design routines *)

Lemma copy_both_fill (Bi Ai : list R) (len cnt : nat) :
  forall (lo : nat) (p1 p2 : list R),
  length p1 = len -> length p2 = len -> (lo + cnt <= len)%nat ->
  (lo + cnt <= length Bi)%nat -> (lo + cnt <= length Ai)%nat ->
  exists p1' p2',
    for_up
      (fun i (t : list R * list R) =>
         x <- Block.rd Bi i ;;
         B' <- Block.wr (fst t) i x ;;
         y <- Block.rd Ai i ;;
         A' <- Block.wr (snd t) i y ;;
         Ok (B', A'))
      lo cnt (p1, p2) = Ok (p1', p2') /\
    length p1' = len /\ length p2' = len /\
    (forall i, (lo <= i < lo + cnt)%nat ->
       nth i p1' 0 = nth i Bi 0 /\ nth i p2' 0 = nth i Ai 0) /\
    (forall i, ~ (lo <= i < lo + cnt)%nat ->
       nth i p1' 0 = nth i p1 0 /\ nth i p2' 0 = nth i p2 0).
Proof.
  induction cnt as [|k IH]; intros lo p1 p2 H1 H2 Hle HB HA.
  - exists p1, p2. simpl. repeat split; auto. all: lia.
  - simpl for_up. cbv beta. simpl fst. simpl snd.
    rewrite (BlockFacts.rd_in Bi lo 0) by lia. rewrite bind_Ok.
    rewrite BlockFacts.wr_in by lia. rewrite bind_Ok.
    rewrite (BlockFacts.rd_in Ai lo 0) by lia. rewrite bind_Ok.
    rewrite BlockFacts.wr_in by lia. rewrite !bind_Ok.
    destruct (IH (S lo) (Block.upd p1 lo (nth lo Bi 0))
                 (Block.upd p2 lo (nth lo Ai 0)))
      as (p1' & p2' & Hrun & Hl1 & Hl2 & Hnew & Hold);
      try (rewrite BlockFacts.upd_length; assumption); try lia.
    exists p1', p2'. split; [exact Hrun|].
    split; [exact Hl1|]. split; [exact Hl2|]. split.
    + intros i Hi. destruct (Nat.eq_dec i lo) as [->|Hne].
      * destruct (Hold lo) as [E1 E2]; [lia|]. rewrite E1, E2.
        split; apply BlockFacts.upd_nth_same; lia.
      * apply Hnew. lia.
    + intros i Hi. destruct (Hold i) as [E1 E2]; [lia|]. rewrite E1, E2.
      split; apply BlockFacts.upd_nth_other; lia.
Qed.

(** Copying [cnt] elements between blocks of [cnt] elements gives the
    sources. *)
Lemma copy_both_all (Bi Ai p1 p2 : list R) (cnt : nat) :
  length Bi = cnt -> length Ai = cnt ->
  length p1 = cnt -> length p2 = cnt ->
  copy_both Bi Ai cnt (p1, p2) = Ok (Bi, Ai).
Proof.
  intros HB HA H1 H2. unfold copy_both.
  destruct (copy_both_fill Bi Ai cnt cnt 0 p1 p2)
    as (p1' & p2' & Hrun & Hl1 & Hl2 & Hnew & _); try lia.
  rewrite Hrun. f_equal. f_equal.
  - apply (nth_ext _ _ 0 0); [lia|]. intros i Hi. apply Hnew. lia.
  - apply (nth_ext _ _ 0 0); [lia|]. intros i Hi. apply Hnew. lia.
Qed.

Section DesignFacts.

Variables liquid_iirdes_filtertype liquid_iirdes_bandtype
          liquid_iirdes_format : Type.
Variables LIQUID_IIRDES_BANDPASS LIQUID_IIRDES_BANDSTOP
  : liquid_iirdes_bandtype.
Variable LIQUID_IIRDES_SOS : liquid_iirdes_format.
Variable bandtype_eq_dec :
  forall x y : liquid_iirdes_bandtype, {x = y} + {x <> y}.
Variable format_eq_dec :
  forall x y : liquid_iirdes_format, {x = y} + {x <> y}.
Variable liquid_iirdes :
  liquid_iirdes_filtertype -> liquid_iirdes_bandtype ->
  liquid_iirdes_format -> N -> R -> R -> R -> R ->
  list R -> list R -> list R * list R.
Variable iirdes_dzpk2sosf :
  list Cplx.complex -> list Cplx.complex -> N -> Cplx.complex ->
  list R -> list R -> list R * list R.

(** The design routines write inside the blocks they are given. *)
Hypothesis liquid_iirdes_fills :
  forall ft bt fm o fc f0 Ap As B A,
    length (fst (liquid_iirdes ft bt fm o fc f0 Ap As B A)) = length B /\
    length (snd (liquid_iirdes ft bt fm o fc f0 Ap As B A)) = length A.

Hypothesis iirdes_dzpk2sosf_fills :
  forall zd pd k kd B A,
    length (fst (iirdes_dzpk2sosf zd pd k kd B A)) = length B /\
    length (snd (iirdes_dzpk2sosf zd pd k kd B A)) = length A.

Lemma prototype_order_cases (_btype : liquid_iirdes_bandtype) (_order : N) :
  (2 * _order < UInt.modulus)%N ->
  let N_ :=
    prototype_order liquid_iirdes_bandtype LIQUID_IIRDES_BANDPASS
      LIQUID_IIRDES_BANDSTOP bandtype_eq_dec _btype _order in
  (N_ = _order \/ N_ = (2 * _order)%N) /\ (N_ <= 2 * _order)%N.
Proof.
  intros Hr. unfold prototype_order, UInt.mul.
  rewrite UIntFacts.wrap_small by (unfold UInt.in_range; lia).
  destruct (bandtype_eq_dec _btype LIQUID_IIRDES_BANDPASS);
    [|destruct (bandtype_eq_dec _btype LIQUID_IIRDES_BANDSTOP)];
    split; try lia.
Qed.

(** X17.  In a format other than second-order sections,
    [create_prototype] calls [create] with as many numerator as
    denominator coefficients, [N+1] with [N] the order (twice the
    order for band-pass and band-stop): it returns a normal-form
    filter of length [N+1], and the overrun of [create] on unequal
    lengths cannot happen. *)
Theorem create_prototype_tf
  (_ftype : liquid_iirdes_filtertype) (_btype : liquid_iirdes_bandtype)
  (_format : liquid_iirdes_format) (_order : N) (_fc _f0 _Ap _As : R) :
  _format <> LIQUID_IIRDES_SOS ->
  (2 * _order + 1 < UInt.modulus)%N ->
  exists q,
    create_prototype liquid_iirdes_filtertype liquid_iirdes_bandtype
      liquid_iirdes_format LIQUID_IIRDES_BANDPASS LIQUID_IIRDES_BANDSTOP
      LIQUID_IIRDES_SOS bandtype_eq_dec format_eq_dec liquid_iirdes
      _ftype _btype _format _order _fc _f0 _Ap _As = Ok q /\
    type q = IIRFILT_TYPE_NORM /\
    (let N_ :=
       prototype_order liquid_iirdes_bandtype LIQUID_IIRDES_BANDPASS
         LIQUID_IIRDES_BANDSTOP bandtype_eq_dec _btype _order in
     nb q = (N_ + 1)%N /\ na q = (N_ + 1)%N /\
     get_length q = (N_ + 1)%N) /\
    (_btype <> LIQUID_IIRDES_BANDPASS -> _btype <> LIQUID_IIRDES_BANDSTOP ->
     get_length q = (_order + 1)%N) /\
    (_btype = LIQUID_IIRDES_BANDPASS \/ _btype = LIQUID_IIRDES_BANDSTOP ->
     get_length q = (2 * _order + 1)%N).
Proof.
  intros Hfmt Hr.
  destruct (prototype_order_cases _btype _order) as [_ Hle]; [lia|].
  unfold create_prototype.
  set (N_ := prototype_order liquid_iirdes_bandtype LIQUID_IIRDES_BANDPASS
               LIQUID_IIRDES_BANDSTOP bandtype_eq_dec _btype _order) in *.
  destruct (format_eq_dec _format LIQUID_IIRDES_SOS) as [?|_];
    [contradiction|].
  unfold UInt.add.
  rewrite (UIntFacts.wrap_small (N_ + 1)) by (unfold UInt.in_range; lia).
  set (BA := liquid_iirdes _ _ _ _ _ _ _ _ _ _).
  destruct (liquid_iirdes_fills _ftype _btype _format _order _fc _f0 _Ap _As
              (Block.malloc 0 (N_ + 1)) (Block.malloc 0 (N_ + 1)))
    as [HB HA].
  fold BA in HB, HA. rewrite BlockFacts.malloc_length in HB, HA.
  rewrite copy_both_all
    by (try assumption; apply BlockFacts.malloc_length).
  rewrite bind_Ok. simpl fst. simpl snd.
  rewrite create_equal_lengths by (try assumption; lia).
  eexists. split; [reflexivity|]. unfold get_length.
  cbn [type nb na n].
  repeat split.
  - intros H1 H2. unfold N_, prototype_order.
    destruct (bandtype_eq_dec _btype LIQUID_IIRDES_BANDPASS);
      [contradiction|].
    destruct (bandtype_eq_dec _btype LIQUID_IIRDES_BANDSTOP);
      [contradiction|]. reflexivity.
  - intros H. unfold N_, prototype_order, UInt.mul.
    rewrite UIntFacts.wrap_small by (unfold UInt.in_range; lia).
    destruct (bandtype_eq_dec _btype LIQUID_IIRDES_BANDPASS); [lia|].
    destruct (bandtype_eq_dec _btype LIQUID_IIRDES_BANDSTOP); [lia|].
    destruct H; contradiction.
Qed.

Lemma create_sos_stored (_B _A : list R) (_nsos : N) (q : iirfilt) :
  (3 * _nsos < UInt.modulus)%N ->
  length _B = N.to_nat (3 * _nsos) -> length _A = N.to_nat (3 * _nsos) ->
  create_sos _B _A _nsos = Ok q ->
  b q = _B /\ a q = _A /\ type q = IIRFILT_TYPE_SOS /\ nsos q = _nsos /\
  get_length q = (2 * _nsos)%N /\ valid_sos q.
Proof.
  intros Hr HB HA Hq.
  destruct (create_sos_Ok_inv _B _A _nsos q Hr HB HA Hq)
    as (Ht & Hs & Hn & _ & _ & Hv & _).
  assert (Hnz : (1 <= _nsos)%N).
  { destruct (N.eq_dec _nsos 0) as [->|H]; [discriminate Hq|lia]. }
  assert (Hfields : b q = _B /\ a q = _A).
  { rewrite create_sos_run in Hq by assumption.
    apply bind_Ok_inv in Hq as (blk & _ & Hq).
    inversion Hq; subst q. simpl. split; reflexivity. }
  destruct Hfields as [Hb Ha].
  unfold get_length.
  split; [exact Hb|]. split; [exact Ha|]. split; [exact Ht|].
  split; [exact Hs|]. split; [exact Hn|exact Hv].
Qed.

(** X18.  In the second-order-sections format, [create_prototype]
    calls [create_sos] on the designed arrays with [N/2 + N mod 2]
    sections, [N] the order (twice the order for band-pass and
    band-stop): order 0 is the fatal error of [create_sos], and a
    filter that is returned has that many sections, length twice
    that, and the designed arrays as they are. *)
Theorem create_prototype_sos
  (_ftype : liquid_iirdes_filtertype) (_btype : liquid_iirdes_bandtype)
  (_order : N) (_fc _f0 _Ap _As : R) :
  (3 * (_order + 1) < UInt.modulus)%N ->
  let N_ :=
    prototype_order liquid_iirdes_bandtype LIQUID_IIRDES_BANDPASS
      LIQUID_IIRDES_BANDSTOP bandtype_eq_dec _btype _order in
  let k := (N_ / 2 + N_ mod 2)%N in
  let BA := liquid_iirdes _ftype _btype LIQUID_IIRDES_SOS _order
              _fc _f0 _Ap _As
              (Block.malloc 0 (3 * k)) (Block.malloc 0 (3 * k)) in
  let made :=
    create_prototype liquid_iirdes_filtertype liquid_iirdes_bandtype
      liquid_iirdes_format LIQUID_IIRDES_BANDPASS LIQUID_IIRDES_BANDSTOP
      LIQUID_IIRDES_SOS bandtype_eq_dec format_eq_dec liquid_iirdes
      _ftype _btype LIQUID_IIRDES_SOS _order _fc _f0 _Ap _As in
  made = create_sos (fst BA) (snd BA) k /\
  (_order = 0%N -> made = Exit no_second_order_section) /\
  (forall q, made = Ok q ->
     type q = IIRFILT_TYPE_SOS /\ nsos q = k /\
     get_length q = (2 * k)%N /\ b q = fst BA /\ a q = snd BA).
Proof.
  intros Hr N_ k BA made.
  destruct (prototype_order_cases _btype _order) as [Hcases Hle]; [lia|].
  fold N_ in Hcases, Hle.
  pose proof (N.div_mod' N_ 2) as Hdm.
  assert (Hmod : (N_ mod 2 < 2)%N) by (apply N.mod_lt; discriminate).
  assert (Hk : (k <= _order + 1)%N) by (unfold k; lia).
  assert (Hmade : made = create_sos (fst BA) (snd BA) k).
  { unfold made, create_prototype. fold N_.
    destruct (format_eq_dec LIQUID_IIRDES_SOS LIQUID_IIRDES_SOS) as [_|H];
      [|contradiction].
    rewrite UIntFacts.sub_small by (unfold UInt.in_range; lia).
    replace ((N_ - N_ mod 2) / 2)%N with (N_ / 2)%N.
    2:{ replace (N_ - N_ mod 2)%N with (N_ / 2 * 2)%N by lia.
        symmetry. apply N.div_mul. discriminate. }
    unfold UInt.add.
    rewrite (UIntFacts.wrap_small (N_ / 2 + N_ mod 2))
      by (unfold UInt.in_range; lia).
    fold k. unfold UInt.mul.
    rewrite (UIntFacts.wrap_small (3 * k)) by (unfold UInt.in_range; lia).
    fold BA.
    destruct (liquid_iirdes_fills _ftype _btype LIQUID_IIRDES_SOS _order
                _fc _f0 _Ap _As
                (Block.malloc 0 (3 * k)) (Block.malloc 0 (3 * k)))
      as [HB HA].
    fold BA in HB, HA. rewrite BlockFacts.malloc_length in HB, HA.
    rewrite copy_both_all
      by (try assumption; apply BlockFacts.malloc_length).
    rewrite bind_Ok. reflexivity. }
  split; [exact Hmade|]. split.
  - intros H0. rewrite Hmade.
    assert (Hk0 : k = 0%N).
    { unfold k. destruct Hcases as [E|E]; rewrite E, H0; reflexivity. }
    rewrite Hk0. reflexivity.
  - intros q Hq. rewrite Hmade in Hq.
    destruct (liquid_iirdes_fills _ftype _btype LIQUID_IIRDES_SOS _order
                _fc _f0 _Ap _As
                (Block.malloc 0 (3 * k)) (Block.malloc 0 (3 * k)))
      as [HB HA].
    fold BA in HB, HA. rewrite BlockFacts.malloc_length in HB, HA.
    assert (H3 : (3 * k < UInt.modulus)%N) by lia.
    destruct (create_sos_stored _ _ _ _ H3 HB HA Hq)
      as (Hb & Ha & Ht & Hs & Hlen & _).
    repeat split; assumption.
Qed.

(** X19.  [create_integrator] and [create_differentiator] call
    [create_sos] with four sections on the twelve values the
    zero-pole-gain conversion gives for their tables: a filter that is
    returned is an SOS-form filter of four sections and length 8
    holding those values. *)
Theorem create_presets_four_sections :
  let BAi := iirdes_dzpk2sosf zdi pdi 8 kdi
               (Block.malloc 0 12) (Block.malloc 0 12) in
  let BAd := iirdes_dzpk2sosf zdd pdd 8 kdd
               (Block.malloc 0 12) (Block.malloc 0 12) in
  create_integrator iirdes_dzpk2sosf = create_sos (fst BAi) (snd BAi) 4 /\
  create_differentiator iirdes_dzpk2sosf =
    create_sos (fst BAd) (snd BAd) 4 /\
  (forall q, create_integrator iirdes_dzpk2sosf = Ok q ->
     type q = IIRFILT_TYPE_SOS /\ nsos q = 4%N /\ get_length q = 8%N /\
     b q = fst BAi /\ a q = snd BAi /\ valid_sos q) /\
  (forall q, create_differentiator iirdes_dzpk2sosf = Ok q ->
     type q = IIRFILT_TYPE_SOS /\ nsos q = 4%N /\ get_length q = 8%N /\
     b q = fst BAd /\ a q = snd BAd /\ valid_sos q).
Proof.
  intros BAi BAd.
  destruct (iirdes_dzpk2sosf_fills zdi pdi 8%N kdi
              (Block.malloc 0 12) (Block.malloc 0 12)) as [HBi HAi].
  destruct (iirdes_dzpk2sosf_fills zdd pdd 8%N kdd
              (Block.malloc 0 12) (Block.malloc 0 12)) as [HBd HAd].
  fold BAi in HBi, HAi. fold BAd in HBd, HAd.
  rewrite BlockFacts.malloc_length in HBi, HAi, HBd, HAd.
  assert (Hi : create_integrator iirdes_dzpk2sosf
               = create_sos (fst BAi) (snd BAi) 4).
  { unfold create_integrator. fold BAi.
    rewrite copy_both_all
      by (try assumption; apply BlockFacts.malloc_length).
    reflexivity. }
  assert (Hd : create_differentiator iirdes_dzpk2sosf
               = create_sos (fst BAd) (snd BAd) 4).
  { unfold create_differentiator. fold BAd.
    rewrite copy_both_all
      by (try assumption; apply BlockFacts.malloc_length).
    reflexivity. }
  split; [exact Hi|]. split; [exact Hd|]. split.
  - intros q Hq. rewrite Hi in Hq.
    destruct (create_sos_stored _ _ 4%N q eq_refl HBi HAi Hq)
      as (Hb & Ha & Ht & Hs & Hlen & Hv).
    split; [exact Ht|]. split; [exact Hs|]. split; [exact Hlen|].
    split; [exact Hb|]. split; [exact Ha|exact Hv].
  - intros q Hq. rewrite Hd in Hq.
    destruct (create_sos_stored _ _ 4%N q eq_refl HBd HAd Hq)
      as (Hb & Ha & Ht & Hs & Hlen & Hv).
    split; [exact Ht|]. split; [exact Hs|]. split; [exact Hlen|].
    split; [exact Hb|]. split; [exact Ha|exact Hv].
Qed.

End DesignFacts.

(** ** The tables of the integrator and of the differentiator *)

Lemma polar_deg_parts (r deg : R) :
  polar_deg r deg =
  Cplx.mk (r * cos (PI / 180 * deg)) (r * sin (PI / 180 * deg)).
Proof.
  unfold polar_deg, Cplx.rmul, Cplx.cexpf, Cplx.mulr, cdivr, Cplx.I.
  simpl.
  replace (0 * PI / 180 * deg) with 0 by (unfold Rdiv; ring).
  replace (1 * PI / 180 * deg) with (PI / 180 * deg) by (unfold Rdiv; ring).
  rewrite exp_0. apply CplxFacts.eq_parts; simpl; ring.
Qed.

Lemma polar_deg_conj (r deg deg' : R) :
  deg' = - deg -> polar_deg r deg = conj (polar_deg r deg').
Proof.
  intros ->. rewrite !polar_deg_parts. unfold conj. simpl.
  replace (PI / 180 * - deg) with (- (PI / 180 * deg)) by ring.
  rewrite cos_neg, sin_neg. apply CplxFacts.eq_parts; simpl; ring.
Qed.

Lemma polar_deg_norm2 (r deg : R) : norm2 (polar_deg r deg) = r * r.
Proof.
  rewrite polar_deg_parts. unfold norm2. simpl.
  pose proof (sin2_cos2 (PI / 180 * deg)) as H. unfold Rsqr in H.
  replace (r * cos (PI / 180 * deg) * (r * cos (PI / 180 * deg)) +
           r * sin (PI / 180 * deg) * (r * sin (PI / 180 * deg)))
    with (r * r * (sin (PI / 180 * deg) * sin (PI / 180 * deg) +
                   cos (PI / 180 * deg) * cos (PI / 180 * deg))) by ring.
  rewrite H. ring.
Qed.

(** X20.  The zero and pole tables of [create_integrator] and
    [create_differentiator] are closed under complex conjugation: each
    holds two real roots and three pairs of conjugates, as a filter
    with real coefficients needs. *)
Theorem preset_tables_conjugate_closed :
  conjugate_closed zdi /\ conjugate_closed pdi /\
  conjugate_closed zdd /\ conjugate_closed pdd.
Proof.
  unfold conjugate_closed, zdi, pdi, zdd, pdd.
  cbn [nth Cplx.Im Cplx.of_real].
  repeat split; try reflexivity; apply polar_deg_conj; lra.
Qed.

(** X21.  Every pole of the differentiator table lies strictly inside
    the unit circle; the poles of the integrator table do as well,
    but for the last one, which is the pole at [z = 1]. *)
Theorem preset_poles_in_unit_circle :
  Forall (fun p => norm2 p < 1) pdd /\
  Forall (fun p => norm2 p < 1) (removelast pdi) /\
  nth 7 pdi (Cplx.of_real 0) = Cplx.of_real 1.
Proof.
  unfold pdd, pdi. cbn [removelast].
  split; [|split].
  - repeat constructor; rewrite ?polar_deg_norm2;
      unfold norm2, Cplx.of_real; simpl; lra.
  - repeat constructor; rewrite ?polar_deg_norm2;
      unfold norm2, Cplx.of_real; simpl; lra.
  - cbn [nth]. unfold Cplx.of_real. f_equal. lra.
Qed.

(** ** [create_sos] past the range of [unsigned int] *)

Lemma for_up_Ok_at {S : Type} (body : nat -> S -> result S) (cnt : nat) :
  forall (lo : nat) (s s' : S),
  for_up body lo cnt s = Ok s' ->
  forall i, (lo <= i < lo + cnt)%nat -> exists si si', body i si = Ok si'.
Proof.
  induction cnt as [|k IH]; intros lo s s' Hrun i Hi; [lia|].
  simpl in Hrun. apply bind_Ok_inv in Hrun as (s1 & Hstep & Hrun).
  destruct (Nat.eq_dec i lo) as [->|Hne].
  - now exists s, s1.
  - apply (IH _ _ _ Hrun). lia.
Qed.

Lemma memmove_length (src p : list R) (k : N) :
  Block.memmove (Block.malloc 0 k) src k = Ok p -> length p = N.to_nat k.
Proof.
  unfold Block.memmove. rewrite BlockFacts.malloc_length.
  destruct ((N.to_nat k <=? N.to_nat k)%nat && (N.to_nat k <=? length src)%nat)
    eqn:E; [|discriminate].
  apply andb_prop in E as [_ E]. apply Nat.leb_le in E.
  intros H. inversion H; subst p; clear H.
  rewrite length_app, length_firstn, length_skipn, BlockFacts.malloc_length.
  lia.
Qed.

(** A turn of the outer loop of [create_sos] that returns has read
    [q->a] at [3*i] inside the block. *)
Lemma create_sos_turn_reads (q_b q_a : list R) (i : nat)
  (blk blk' : list iirfiltsos) :
  (tt <- for_up
     (fun k (t : list R * list R) =>
        x <- Block.rd q_a (sos_index i k) ;;
        at' <- Block.wr (fst t) k x ;;
        y <- Block.rd q_b (sos_index i k) ;;
        bt' <- Block.wr (snd t) k y ;;
        Ok (at', bt'))
     0 3 ([0; 0; 0], [0; 0; 0]) ;;
   s <- iirfiltsos_create (snd tt) (fst tt) ;;
   Block.wr blk i s) = Ok blk' ->
  (sos_index i 0 < length q_a)%nat.
Proof.
  intros H.
  apply bind_Ok_inv in H as (tt & Hinner & _).
  simpl for_up in Hinner.
  apply bind_Ok_inv in Hinner as (t1 & Hstep & _).
  apply bind_Ok_inv in Hstep as (x & Hrd & _).
  now apply BlockFacts.rd_Ok in Hrd as [Hlt _].
Qed.

Lemma create_sos_loop_reads (q_b q_a : list R) (_nsos : N)
  (blk blk' : list iirfiltsos) :
  for_up
    (fun i p =>
       tt <- for_up
         (fun k (t : list R * list R) =>
            x <- Block.rd q_a (sos_index i k) ;;
            at' <- Block.wr (fst t) k x ;;
            y <- Block.rd q_b (sos_index i k) ;;
            bt' <- Block.wr (snd t) k y ;;
            Ok (at', bt'))
         0 3 ([0; 0; 0], [0; 0; 0]) ;;
       s <- iirfiltsos_create (snd tt) (fst tt) ;;
       Block.wr p i s)
    0 (N.to_nat _nsos) blk = Ok blk' ->
  forall c : N, (c < _nsos)%N ->
    (UInt.add (UInt.mul 3 c) 0 < N.of_nat (length q_a))%N.
Proof.
  intros Hloop c Hc.
  assert (Hi : (0 <= N.to_nat c < 0 + N.to_nat _nsos)%nat) by lia.
  destruct (for_up_Ok_at _ _ _ _ _ Hloop (N.to_nat c) Hi)
    as (si & si' & Hbody).
  apply create_sos_turn_reads in Hbody.
  unfold sos_index in Hbody. rewrite N2Nat.id in Hbody.
  change (N.of_nat 0) with 0%N in Hbody. lia.
Qed.

(** X22.  When [3*_nsos] does not fit in an [unsigned int],
    [create_sos] returns no filter, whatever the arrays: the blocks of
    [q->b] and [q->a] are allocated with the wrapped product (lines
    160-161) and the loop of lines 168-172 reads [q->a] at index
    [2^32-1], outside of them. *)
Theorem create_sos_index_overflow (_B _A : list R) (_nsos : N) (q : iirfilt) :
  UInt.in_range _nsos -> (UInt.modulus <= 3 * _nsos)%N ->
  create_sos _B _A _nsos <> Ok q.
Proof.
  intros Hr Hov Hq. unfold create_sos in Hq.
  destruct (N.eqb_spec _nsos 0) as [?|_]; [discriminate|].
  apply bind_Ok_inv in Hq as (qb & _ & Hq).
  apply bind_Ok_inv in Hq as (qa & Hqa & Hq).
  apply bind_Ok_inv in Hq as (qs & Hloop & _).
  apply memmove_length in Hqa.
  assert (Hc0 : (1431655765 < _nsos)%N) by (unfold UInt.modulus in *; lia).
  pose proof (create_sos_loop_reads _ _ _ _ _ Hloop 1431655765%N Hc0)
    as Hread.
  assert (HN : UInt.add (UInt.mul 3 1431655765) 0 = 4294967295%N)
    by (vm_compute; reflexivity).
  rewrite HN, Hqa, N2Nat.id in Hread.
  pose proof (UIntFacts.wrap_in_range (3 * _nsos)) as Hw.
  unfold UInt.mul in Hread. unfold UInt.in_range, UInt.modulus in Hw.
  clear - Hread Hw. lia.
Qed.

(** ** Instances of the further statements *)

Lemma two_tap_valid : valid_norm two_tap.
Proof. constructor; simpl; try reflexivity; lia. Qed.

Lemma create_returns_iff_lengths_agree_witness :
  ((exists q, create [1; 1] 2 [1; 2; 3] 3 = Ok q) <-> (2 = 3)%N) /\
  ((2 <> 3)%N -> create [1; 1] 2 [1; 2; 3] 3 = Fault).
Proof.
  apply create_returns_iff_lengths_agree; try reflexivity; lia.
Defined.

Lemma create_stores_normalized_witness :
  exists q,
    create [2; 4] 2 [2; 1] 2 = Ok q /\
    type q = IIRFILT_TYPE_NORM /\
    b q = map (fun x => x / nth 0 [2; 1] 0) [2; 4] /\
    a q = map (fun x => x / nth 0 [2; 1] 0) [2; 1] /\
    nth 0 (a q) 0 = 1 /\
    v q = repeat 0 (N.to_nat 2) /\
    get_length q = 2%N.
Proof.
  apply create_stores_normalized; try reflexivity; try lia.
  simpl. lra.
Defined.

Lemma execute_block_never_faults_witness :
  exists (q' : iirfilt) (ys : list R),
    execute_block one_pole [1; 0; 0] = Ok (q', ys) /\
    length ys = length [1; 0; 0] /\ valid q' /\ same_design q' one_pole.
Proof.
  apply execute_block_never_faults. left. exact one_pole_valid.
Defined.

Lemma create_run_clear_witness :
  exists (q1 : iirfilt) (ys : list R),
    execute_block one_pole [1; 0; 0] = Ok (q1, ys) /\
    length ys = length [1; 0; 0] /\
    clear q1 = Ok one_pole.
Proof.
  apply (create_run_clear [1; -1] [1; -9 / 10] 2 one_pole [1; 0; 0]);
    try reflexivity; try lia.
  exact one_pole_created.
Defined.

Lemma clear_idempotent_witness :
  exists q' : iirfilt, clear half_gain = Ok q' /\ clear q' = Ok q'.
Proof. apply clear_idempotent. right. exact half_gain_valid. Defined.

Lemma freqresponse_sos_closed_form_witness :
  freqresponse half_gain (1 / 4) =
  Ok (sections_response (b half_gain) (b half_gain)
        (N.to_nat (nsos half_gain)) (1 / 4)).
Proof.
  apply freqresponse_sos_closed_form; [exact half_gain_valid|reflexivity].
Defined.

Lemma create_sos_copies_arrays_witness :
  b half_gain = [1; 0; 0] /\ a half_gain = [2; 0; 0] /\ v half_gain = [] /\
  valid_sos half_gain /\ Forall sos_cleared (qsos half_gain).
Proof.
  apply (create_sos_copies_arrays [1; 0; 0] [2; 0; 0] 1 half_gain);
    try reflexivity.
  exact half_gain_created.
Defined.

Lemma groupdelay_norm_passes_coefficients_witness :
  groupdelay flat_group_delay one_pole (1 / 4) =
  Ok (flat_group_delay (b one_pole) (nb one_pole) (a one_pole)
        (na one_pole) (1 / 4)).
Proof.
  apply groupdelay_norm_passes_coefficients. exact one_pole_valid.
Defined.

Lemma execute_norm_recurrence_witness :
  execute_norm one_pole 1 =
  Ok (set_v one_pole
        (direct_form_state (a one_pole) (N.to_nat (na one_pole))
           (v one_pole) 1 :: removelast (v one_pole)),
      direct_form_output (b one_pole) (N.to_nat (nb one_pole))
        (direct_form_state (a one_pole) (N.to_nat (na one_pole))
           (v one_pole) 1 :: removelast (v one_pole))).
Proof. apply execute_norm_recurrence. exact one_pole_valid. Defined.

Lemma execute_block_additive_witness :
  exists (w1 w2 ys1 ys2 : list R),
    execute_block (set_v one_pole [0; 0]) [1; 0] = Ok (set_v one_pole w1, ys1) /\
    execute_block (set_v one_pole [1; 2]) [0; 3] = Ok (set_v one_pole w2, ys2) /\
    execute_block (set_v one_pole (vadd [0; 0] [1; 2])) (vadd [1; 0] [0; 3]) =
      Ok (set_v one_pole (vadd w1 w2), vadd ys1 ys2).
Proof.
  apply execute_block_additive; try reflexivity. exact one_pole_valid.
Defined.

Lemma execute_block_homogeneous_witness :
  exists (w ys : list R),
    execute_block (set_v one_pole [1; 2]) [1; 0] = Ok (set_v one_pole w, ys) /\
    execute_block (set_v one_pole (vscale 3 [1; 2])) (vscale 3 [1; 0]) =
      Ok (set_v one_pole (vscale 3 w), vscale 3 ys).
Proof.
  apply execute_block_homogeneous; [exact one_pole_valid|reflexivity].
Defined.

Lemma execute_block_fir_witness :
  exists (q' : iirfilt) (ys : list R),
    execute_block two_tap [1; 0; 0] = Ok (q', ys) /\
    length ys = length [1; 0; 0] /\
    forall k, (k < length [1; 0; 0])%nat ->
      nth k ys 0 =
      sum_from
        (fun i => nth i (b two_tap) 0 *
                  (if (i <=? k)%nat then nth (k - i) [1; 0; 0] 0 else 0))
        0 (N.to_nat (nb two_tap)).
Proof.
  apply execute_block_fir; [exact two_tap_valid|reflexivity|].
  simpl. repeat constructor.
Defined.

Lemma freqresponse_tf_closed_form_witness :
  freqresponse one_pole (1 / 4) =
  Ok (Cplx.div (dft_sum (b one_pole) (1 / 4) (N.to_nat (nb one_pole)))
               (dft_sum (a one_pole) (1 / 4) (N.to_nat (na one_pole)))).
Proof. apply freqresponse_tf_closed_form. exact one_pole_valid. Defined.

Lemma create_dc_gain_witness :
  exists q,
    create [1; 1] 2 [2; 2] 2 = Ok q /\
    freqresponse q 0 =
    Ok (Cplx.mk (sum_from (fun i => nth i [1; 1] 0) 0 (N.to_nat 2)
                 / sum_from (fun i => nth i [2; 2] 0) 0 (N.to_nat 2)) 0).
Proof.
  apply create_dc_gain; try reflexivity; try lia; simpl; lra.
Defined.

Lemma dc_blocker_rejects_dc_witness :
  exists q,
    create_dc_blocker (1 / 10) = Ok q /\
    freqresponse q 0 = Ok (Cplx.mk 0 0).
Proof. apply dc_blocker_rejects_dc. lra. Defined.

Lemma create_sos_index_overflow_witness :
  create_sos [] [] 1431655766 <> Ok half_gain.
Proof.
  apply create_sos_index_overflow; [reflexivity|].
  unfold UInt.modulus. intros H. discriminate H.
Defined.

Lemma idle_iirdes_fills :
  forall ft bt fm o fc f0 Ap As B A,
    length (fst (idle_iirdes ft bt fm o fc f0 Ap As B A)) = length B /\
    length (snd (idle_iirdes ft bt fm o fc f0 Ap As B A)) = length A.
Proof. intros. split; reflexivity. Qed.

Lemma idle_dzpk2sosf_fills :
  forall zd pd k kd B A,
    length (fst (idle_dzpk2sosf zd pd k kd B A)) = length B /\
    length (snd (idle_dzpk2sosf zd pd k kd B A)) = length A.
Proof. intros. split; reflexivity. Qed.

Lemma create_prototype_tf_witness :
  exists q,
    create_prototype unit nat nat 2%nat 3%nat 0%nat Nat.eq_dec Nat.eq_dec
      idle_iirdes tt 2%nat 1%nat 4 0 0 0 0 = Ok q /\
    get_length q = 9%N.
Proof.
  destruct (create_prototype_tf unit nat nat 2%nat 3%nat 0%nat
              Nat.eq_dec Nat.eq_dec idle_iirdes idle_iirdes_fills
              tt 2%nat 1%nat 4%N 0 0 0 0)
    as (q & Hq & _ & _ & _ & Hband).
  - discriminate.
  - reflexivity.
  - exists q. split; [exact Hq|]. apply Hband. left. reflexivity.
Defined.

Lemma create_prototype_sos_witness :
  create_prototype unit nat nat 2%nat 3%nat 0%nat Nat.eq_dec Nat.eq_dec
    idle_iirdes tt 1%nat 0%nat 0 0 0 0 0 = Exit no_second_order_section.
Proof.
  pose proof (create_prototype_sos unit nat nat 2%nat 3%nat 0%nat
                Nat.eq_dec Nat.eq_dec idle_iirdes idle_iirdes_fills
                tt 1%nat 0%N 0 0 0 0 eq_refl) as H.
  cbv zeta in H. destruct H as (_ & H0 & _).
  exact (H0 eq_refl).
Defined.

Lemma create_presets_four_sections_witness :
  create_integrator idle_dzpk2sosf =
  create_sos (Block.malloc 0 12) (Block.malloc 0 12) 4.
Proof.
  pose proof (create_presets_four_sections idle_dzpk2sosf
                idle_dzpk2sosf_fills) as H.
  cbv zeta in H. destruct H as (Hi & _).
  exact Hi.
Defined.

(** ** Silence *)

Lemma vscale_zero (p : list R) : vscale 0 p = repeat 0 (length p).
Proof.
  induction p as [|x p IH]; [reflexivity|].
  change (vscale 0 (x :: p)) with (0 * x :: vscale 0 p).
  rewrite IH. simpl. f_equal. ring.
Qed.

(** X23.  A validly constructed normal-form filter whose buffer is all
    zero answers [m] zero samples with [m] zero samples and is left
    exactly as it was: the filter adds nothing of its own. *)
Theorem execute_block_silence (_q : iirfilt) (m : nat) :
  valid_norm _q -> Forall (fun x => x = 0) (v _q) ->
  execute_block _q (repeat 0 m) = Ok (_q, repeat 0 m).
Proof.
  intros Hq Hz.
  pose proof (vn_v _ Hq) as Hv.
  pose proof (valid_norm_n_pos _q Hq) as Hn.
  apply all_zero_repeat in Hz.
  pose proof (execute_block_closed _q (vscale 0 (repeat 0 m))
                (vscale 0 (v _q)) Hq) as Hrun.
  rewrite vscale_length in Hrun. specialize (Hrun Hv).
  rewrite norm_run_scale in Hrun. simpl fst in Hrun. simpl snd in Hrun.
  rewrite !vscale_zero in Hrun.
  destruct (norm_run_length _q (repeat 0 m) (v _q)) as [L1 L2]; [lia|].
  rewrite L1, L2, repeat_length, <- Hz in Hrun.
  replace (set_v _q (v _q)) with _q in Hrun by (destruct _q; reflexivity).
  exact Hrun.
Qed.

Lemma execute_block_silence_witness :
  execute_block one_pole (repeat 0 3) = Ok (one_pole, repeat 0 3).
Proof.
  apply execute_block_silence; [exact one_pole_valid|].
  simpl. repeat constructor.
Defined.


(** * Part IV: the outcomes of construction *)

(** ** [create_sos]: its error, and the filter it returns *)

Lemma for_up_keeps_length {T : Type}
  (body : nat -> list T -> result (list T)) (cnt : nat) :
  (forall i p p', body i p = Ok p' -> length p' = length p) ->
  forall (lo : nat) (p p' : list T),
  for_up body lo cnt p = Ok p' -> length p' = length p.
Proof.
  intros Hbody. induction cnt as [|k IH]; intros lo p p' H; simpl in H.
  - congruence.
  - apply bind_Ok_inv in H as (p1 & Hstep & H).
    rewrite (IH _ _ _ H). exact (Hbody _ _ _ Hstep).
Qed.

Lemma for_up_Exit_at {S : Type} (body : nat -> S -> result S) (cnt : nat) :
  forall (lo : nat) (s : S) (e : fatal),
  for_up body lo cnt s = Exit e -> exists i si, body i si = Exit e.
Proof.
  induction cnt as [|k IH]; intros lo s e H; simpl in H; [discriminate|].
  apply bind_Exit_inv in H as [H|(s1 & _ & H)].
  - now exists lo, s.
  - exact (IH _ _ _ H).
Qed.

Lemma memmove_no_exit {T : Type} (dst src : list T) (k : N) (e : fatal) :
  Block.memmove dst src k <> Exit e.
Proof.
  unfold Block.memmove.
  destruct ((N.to_nat k <=? length dst)%nat && (N.to_nat k <=? length src)%nat);
    discriminate.
Qed.

Lemma iirfiltsos_create_exit (_b _a : list R) (e : fatal) :
  iirfiltsos_create _b _a = Exit e -> e = section_leading_zero.
Proof.
  unfold iirfiltsos_create. intros H.
  repeat (apply bind_Exit_inv in H as [H|(? & _ & H)];
          [exfalso; exact (rd_no_exit _ _ _ H)|]).
  destruct (Req_dec_T _ 0); congruence.
Qed.

(** The only fatal error of [create_sos] itself is the one of line 147;
    any other comes from the section constructor. *)
Lemma create_sos_exit_kind (_B _A : list R) (_nsos : N) (e : fatal) :
  create_sos _B _A _nsos = Exit e ->
  (_nsos = 0%N /\ e = no_second_order_section) \/
  (_nsos <> 0%N /\ e = section_leading_zero).
Proof.
  unfold create_sos. destruct (N.eqb_spec _nsos 0) as [Hz|Hnz]; intros H.
  - left. split; [exact Hz|congruence].
  - right. split; [exact Hnz|].
    apply bind_Exit_inv in H as [H|(qb & _ & H)];
      [exfalso; exact (memmove_no_exit _ _ _ _ H)|].
    apply bind_Exit_inv in H as [H|(qa & _ & H)];
      [exfalso; exact (memmove_no_exit _ _ _ _ H)|].
    apply bind_Exit_inv in H as [H|(qs & _ & H)]; [|discriminate].
    apply for_up_Exit_at in H as (i & blk & H).
    apply bind_Exit_inv in H as [H|(tt & _ & H)].
    + exfalso. revert H. apply for_up_no_exit. intros k t H.
      apply bind_Exit_inv in H as [H|(x & _ & H)];
        [exact (rd_no_exit _ _ _ H)|].
      apply bind_Exit_inv in H as [H|(at' & _ & H)];
        [exact (wr_no_exit _ _ _ _ H)|].
      apply bind_Exit_inv in H as [H|(y & _ & H)];
        [exact (rd_no_exit _ _ _ H)|].
      apply bind_Exit_inv in H as [H|(bt' & _ & H)];
        [exact (wr_no_exit _ _ _ _ H)|discriminate].
    + apply bind_Exit_inv in H as [H|(s & _ & H)].
      * exact (iirfiltsos_create_exit _ _ _ H).
      * exfalso. exact (wr_no_exit _ _ _ _ H).
Qed.

(** A call of [create_sos] that returns has [3*_nsos] within the range
    of [unsigned int]. *)
Lemma create_sos_Ok_range (_B _A : list R) (_nsos : N) (q : iirfilt) :
  UInt.in_range _nsos -> create_sos _B _A _nsos = Ok q ->
  (3 * _nsos < UInt.modulus)%N.
Proof.
  intros Hr Hq.
  destruct (N.lt_ge_cases (3 * _nsos) UInt.modulus) as [Hlt|Hov]; [exact Hlt|].
  exfalso. unfold create_sos in Hq.
  destruct (N.eqb_spec _nsos 0) as [?|_]; [discriminate|].
  apply bind_Ok_inv in Hq as (qb & _ & Hq).
  apply bind_Ok_inv in Hq as (qa & Hqa & Hq).
  apply bind_Ok_inv in Hq as (qs & Hloop & _).
  apply memmove_length in Hqa.
  assert (Hc0 : (1431655765 < _nsos)%N) by (unfold UInt.modulus in *; lia).
  pose proof (create_sos_loop_reads _ _ _ _ _ Hloop 1431655765%N Hc0)
    as Hread.
  assert (HN : UInt.add (UInt.mul 3 1431655765) 0 = 4294967295%N)
    by (vm_compute; reflexivity).
  rewrite HN, Hqa, N2Nat.id in Hread.
  pose proof (UIntFacts.wrap_in_range (3 * _nsos)) as Hw.
  unfold UInt.mul in Hread. unfold UInt.in_range, UInt.modulus in Hw.
  clear - Hread Hw. lia.
Qed.

Lemma create_sos_Ok_shape (_B _A : list R) (_nsos : N) (q : iirfilt) :
  UInt.in_range _nsos -> create_sos _B _A _nsos = Ok q ->
  type q = IIRFILT_TYPE_SOS /\ nsos q = _nsos /\
  length (qsos q) = N.to_nat _nsos /\ n q = (2 * _nsos)%N.
Proof.
  intros Hr Hq. pose proof (create_sos_Ok_range _ _ _ _ Hr Hq) as Hlt.
  unfold create_sos in Hq.
  destruct (N.eqb_spec _nsos 0) as [?|Hnz]; [discriminate|].
  apply bind_Ok_inv in Hq as (qb & _ & Hq).
  apply bind_Ok_inv in Hq as (qa & _ & Hq).
  apply bind_Ok_inv in Hq as (qs & Hloop & Hq).
  inversion Hq; subst q; clear Hq. cbn [type nsos qsos n].
  split; [reflexivity|]. split; [reflexivity|]. split.
  - apply for_up_keeps_length in Hloop.
    + rewrite Hloop. apply BlockFacts.malloc_length.
    + intros i p p' H.
      apply bind_Ok_inv in H as (tt & _ & H).
      apply bind_Ok_inv in H as (s & _ & H).
      apply BlockFacts.wr_Ok in H as [_ ->].
      apply BlockFacts.upd_length.
  - unfold UInt.mul.
    rewrite UIntFacts.wrap_small by (unfold UInt.in_range; lia). lia.
Qed.

(** ** [create_pll]: validation and the call of [create_sos] *)

Lemma create_pll_returns
  (iirdes_pll_active_lag : R -> R -> R -> (R * R * R) * (R * R * R))
  (_w _zeta _K : R) :
  0 < _w < 1 -> 0 < _zeta < 1 -> 0 < _K ->
  design_a0 (iirdes_pll_active_lag _w _zeta _K) <> 0 ->
  create_pll iirdes_pll_active_lag _w _zeta _K =
  Ok (loop_filter (iirdes_pll_active_lag _w _zeta _K)).
Proof.
  intros Hw Hz HK Ha0. rewrite create_pll_in_range by assumption.
  destruct (iirdes_pll_active_lag _w _zeta _K)
    as [[[bf0 bf1] bf2] [[af0 af1] af2]].
  unfold design_a0 in Ha0. simpl in Ha0.
  cbv -[Rdiv Rplus Rminus Rmult Ropp Rinv IZR Req_dec_T].
  destruct (Req_dec_T af0 0) as [Hz0|_]; [contradiction|reflexivity].
Qed.

(** X24.  [create_pll] stops with one of its three configuration errors
    exactly when the bandwidth is outside of (0,1), the damping factor
    is outside of (0,1) or the loop gain is not positive, the checks
    being made in this order (lines 400-409); on every other triple it
    is [create_sos] on the one section of the design routine (line 441),
    which gives the filter [loop_filter] of that design when the
    designed denominator does not start with zero. *)
Theorem create_pll_configuration_error
  (iirdes_pll_active_lag : R -> R -> R -> (R * R * R) * (R * R * R))
  (_w _zeta _K : R) :
  ((exists e, create_pll iirdes_pll_active_lag _w _zeta _K = Exit e /\
              (e = pll_bandwidth_range \/ e = pll_damping_range \/
               e = pll_gain_range)) <->
   (_w <= 0 \/ _w >= 1 \/ _zeta <= 0 \/ _zeta >= 1 \/ _K <= 0)) /\
  (_w <= 0 \/ _w >= 1 ->
   create_pll iirdes_pll_active_lag _w _zeta _K = Exit pll_bandwidth_range) /\
  (0 < _w < 1 -> _zeta <= 0 \/ _zeta >= 1 ->
   create_pll iirdes_pll_active_lag _w _zeta _K = Exit pll_damping_range) /\
  (0 < _w < 1 -> 0 < _zeta < 1 -> _K <= 0 ->
   create_pll iirdes_pll_active_lag _w _zeta _K = Exit pll_gain_range) /\
  (0 < _w < 1 -> 0 < _zeta < 1 -> 0 < _K ->
   create_pll iirdes_pll_active_lag _w _zeta _K =
   (let '((bf0, bf1, bf2), (af0, af1, af2)) :=
      iirdes_pll_active_lag _w _zeta _K in
    create_sos [bf0; bf1; bf2] [af0; af1; af2] 1) /\
   (design_a0 (iirdes_pll_active_lag _w _zeta _K) <> 0 ->
    create_pll iirdes_pll_active_lag _w _zeta _K =
    Ok (loop_filter (iirdes_pll_active_lag _w _zeta _K)))).
Proof.
  split; [split|].
  - intros (e & He & Hk).
    destruct (Rle_dec _w 0); [lra|]. destruct (Rge_dec _w 1); [lra|].
    destruct (Rle_dec _zeta 0); [lra|]. destruct (Rge_dec _zeta 1); [lra|].
    destruct (Rle_dec _K 0); [lra|].
    exfalso. rewrite create_pll_in_range in He by lra.
    destruct (iirdes_pll_active_lag _w _zeta _K)
      as [[[bf0 bf1] bf2] [[af0 af1] af2]].
    apply create_sos_exit_kind in He as [[H0 _]|[_ ->]]; [discriminate H0|].
    destruct Hk as [Hk|[Hk|Hk]]; discriminate Hk.
  - intros H.
    destruct (create_pll_out_of_range iirdes_pll_active_lag _w _zeta _K H)
      as (e & He & Hk).
    now exists e.
  - split; [|split; [|split]].
    + intros H. unfold create_pll.
      destruct (Rle_dec _w 0); [reflexivity|].
      destruct (Rge_dec _w 1); [reflexivity|]. exfalso. lra.
    + intros Hw H. unfold create_pll.
      destruct (Rle_dec _w 0); [lra|]. destruct (Rge_dec _w 1); [lra|].
      destruct (Rle_dec _zeta 0); [reflexivity|].
      destruct (Rge_dec _zeta 1); [reflexivity|]. exfalso. lra.
    + intros Hw Hz H. unfold create_pll.
      destruct (Rle_dec _w 0); [lra|]. destruct (Rge_dec _w 1); [lra|].
      destruct (Rle_dec _zeta 0); [lra|]. destruct (Rge_dec _zeta 1); [lra|].
      destruct (Rle_dec _K 0); [reflexivity|]. exfalso. lra.
    + intros Hw Hz HK. split.
      * now apply create_pll_in_range.
      * intros Ha0. now apply create_pll_returns.
Qed.

(** ** [create] and [create_sos] *)

(** C8.  With one numerator and two denominator coefficients, both
    lengths different from zero, [create] neither stops with a fatal
    error nor returns a filter of length [max(2,1) = 2]: the block of
    [q->a] is allocated with [_nb = 1] element (line 101) and the loop
    of line 113 writes [q->a[1]], outside of it, before the buffer is
    allocated.  So it is for all arrays of different lengths.  The rest
    holds: [create] stops with a fatal error exactly when [_nb = 0] or
    [_na = 0]; on arrays of equal length it returns a filter, and a
    filter it returns is in normal form with [n = max(_na,_nb)] and a
    buffer of [n] zeros.  [create_sos] stops with its fatal error
    exactly when [_nsos = 0]; a filter it returns has exactly [_nsos]
    sections and [n = 2*_nsos], and it returns one on arrays of
    [3*_nsos] elements whose sections the section constructor
    accepts. *)
Theorem create_outcomes :
  create [1] 1 [1; 1 / 2] 2 = Fault /\
  (forall (_b _a : list R) (_nb _na : N),
     (1 <= _nb)%N -> (1 <= _na)%N -> _nb <> _na ->
     length _b = N.to_nat _nb -> length _a = N.to_nat _na ->
     create _b _nb _a _na = Fault) /\
  (forall (_b _a : list R) (_nb _na : N),
     (exists e, create _b _nb _a _na = Exit e) <-> (_nb = 0 \/ _na = 0)%N) /\
  (forall (_b _a : list R) (k : N),
     (1 <= k)%N -> length _b = N.to_nat k -> length _a = N.to_nat k ->
     exists q,
       create _b k _a k = Ok q /\ type q = IIRFILT_TYPE_NORM /\
       n q = N.max k k /\ v q = repeat 0 (N.to_nat (n q))) /\
  (forall (_b _a : list R) (_nb _na : N) (q : iirfilt),
     create _b _nb _a _na = Ok q ->
     type q = IIRFILT_TYPE_NORM /\ n q = N.max _na _nb /\
     v q = repeat 0 (N.to_nat (n q))) /\
  (forall (_B _A : list R) (_nsos : N),
     create_sos _B _A _nsos = Exit no_second_order_section <-> _nsos = 0%N) /\
  (forall (_B _A : list R) (_nsos : N) (q : iirfilt),
     UInt.in_range _nsos -> create_sos _B _A _nsos = Ok q ->
     type q = IIRFILT_TYPE_SOS /\ nsos q = _nsos /\
     length (qsos q) = N.to_nat _nsos /\ n q = (2 * _nsos)%N) /\
  (forall (_B _A : list R) (_nsos : N),
     (1 <= _nsos)%N -> (3 * _nsos < UInt.modulus)%N ->
     length _B = N.to_nat (3 * _nsos) -> length _A = N.to_nat (3 * _nsos) ->
     (forall i, (i < N.to_nat _nsos)%nat -> nth (3 * i) _A 0 <> 0) ->
     exists q, create_sos _B _A _nsos = Ok q).
Proof.
  split; [apply create_unequal_lengths; try reflexivity; lia|].
  split; [intros; now apply create_unequal_lengths|].
  split; [intros; apply create_exit|].
  split.
  { intros _b _a k Hk Hb Ha. eexists. split.
    - now apply create_equal_lengths.
    - cbn [type n v]. rewrite N.max_id. repeat split. }
  split.
  { intros _b _a _nb _na q Hq.
    apply create_Ok_inv in Hq as (Ht & _ & _ & Hn & Hv & _). auto. }
  split.
  { intros _B _A _nsos. split.
    - intros H. apply create_sos_exit_kind in H as [[H0 _]|[_ H]];
        [exact H0|discriminate H].
    - intros ->. reflexivity. }
  split.
  { intros _B _A _nsos q Hr Hq. now apply (create_sos_Ok_shape _B _A). }
  intros _B _A _nsos Hk Hr HB HA Hlead.
  destruct (create_sos_Ok _B _A _nsos) as (q & Hq & _); auto.
  now exists q.
Qed.

(** ** [create_dc_blocker] *)

Lemma norm_run_cons (_q : iirfilt) (v_ : list R) (x : R) (t : list R) :
  snd (norm_run _q v_ (x :: t)) =
  norm_out _q v_ x :: snd (norm_run _q (norm_next _q v_ x) t).
Proof. reflexivity. Qed.

(** The outputs of the DC-blocking filter obey
    [y[k+1] = x[k+1] - x[k] + (1-alpha)*y[k]], from any buffer. *)
Lemma dc_blocker_difference (_alpha : R) (xs : list R) :
  forall (p r : R) (k : nat),
  (S k < length xs)%nat ->
  nth (S k) (snd (norm_run (dc_blocker _alpha) [p; r] xs)) 0 =
  nth (S k) xs 0 - nth k xs 0 +
  (1 - _alpha) * nth k (snd (norm_run (dc_blocker _alpha) [p; r] xs)) 0.
Proof.
  induction xs as [|x t IH]; intros p r k Hk; [simpl in Hk; lia|].
  rewrite norm_run_cons, dc_blocker_next, dc_blocker_out.
  destruct k as [|k'].
  - destruct t as [|x1 t']; [simpl in Hk; lia|].
    rewrite norm_run_cons, dc_blocker_out. cbn [nth]. ring.
  - cbn [nth]. apply IH. simpl in Hk. lia.
Qed.

(** C9.  For every [alpha], [create_dc_blocker(alpha)] returns the
    filter [dc_blocker alpha]: normal form, numerator [1, -1],
    denominator [1, alpha - 1] (that is [1, -(1-alpha)]), length 2 and
    a buffer of two zeros, validly constructed.  That filter realizes
    [H(z) = (1 - z^-1) / (1 - (1-alpha) z^-1)]: on every sequence of
    samples [execute] returns, with [y[0] = x[0]] and
    [y[k+1] = x[k+1] - x[k] + (1-alpha)*y[k]]. *)
Theorem create_dc_blocker_coefficients (_alpha : R) :
  create_dc_blocker _alpha = Ok (dc_blocker _alpha) /\
  valid_norm (dc_blocker _alpha) /\
  type (dc_blocker _alpha) = IIRFILT_TYPE_NORM /\
  nb (dc_blocker _alpha) = 2%N /\ na (dc_blocker _alpha) = 2%N /\
  n (dc_blocker _alpha) = 2%N /\
  b (dc_blocker _alpha) = [1; -1] /\
  a (dc_blocker _alpha) = [1; _alpha - 1] /\
  a (dc_blocker _alpha) = [1; - (1 - _alpha)] /\
  v (dc_blocker _alpha) = [0; 0] /\
  forall xs : list R,
  exists (q' : iirfilt) (ys : list R),
    execute_block (dc_blocker _alpha) xs = Ok (q', ys) /\
    length ys = length xs /\
    ((0 < length xs)%nat -> nth 0 ys 0 = nth 0 xs 0) /\
    (forall k, (S k < length xs)%nat ->
       nth (S k) ys 0 =
       nth (S k) xs 0 - nth k xs 0 + (1 - _alpha) * nth k ys 0).
Proof.
  split; [apply dc_blocker_created|].
  split; [apply dc_blocker_valid|].
  repeat (split; [reflexivity|]).
  split; [simpl; f_equal; f_equal; lra|].
  split; [reflexivity|].
  intros xs.
  pose proof (execute_block_closed (dc_blocker _alpha) xs [0; 0]
                (dc_blocker_valid _alpha) eq_refl) as Hrun.
  change (set_v (dc_blocker _alpha) [0; 0]) with (dc_blocker _alpha)
    in Hrun at 1.
  eexists. eexists.
  split; [exact Hrun|].
  split.
  - destruct (norm_run_length (dc_blocker _alpha) xs [0; 0]) as [_ H];
      [simpl; lia|exact H].
  - split.
    + intros Hpos. destruct xs as [|x t]; [simpl in Hpos; lia|].
      rewrite norm_run_cons, dc_blocker_out. cbn [nth]. ring.
    + intros k Hk. now apply dc_blocker_difference.
Qed.
